(** * Space-Saver front end: path-set validation and the compression worker pool

    A shallow embedding of
    - [app/src/lib/utils/path.ts]            (module [PathUtils]),
    - [app/src/lib/components/PathSelector.svelte], function [handlePathAdded],
    - [app/src/routes/compress/+page.svelte], functions [handleCompress]
      and [goToConfirm]                       (module [CompressPage]).

    JavaScript strings are modelled as [string] (sequences of 8-bit
    characters); [toLowerCase] is modelled on the ASCII letters, all other
    characters are left as they are. *)

From Stdlib Require Import String Ascii Arith NArith Lia Bool.
From stdpp Require Import base list strings.

Local Open Scope nat_scope.

(** ** JavaScript string primitives used by the sources *)

Module JsString.

Definition backslash : ascii := Eval cbv in ascii_of_nat 92.
Definition slash : ascii := Eval cbv in ascii_of_nat 47.

Fixpoint map_chars (f : ascii -> ascii) (s : string) : string :=
  match s with
  | EmptyString => EmptyString
  | String c s' => String (f c) (map_chars f s')
  end.

(** [s.replace(/\\/g, '/')] *)
Definition replace_backslash_char (c : ascii) : ascii :=
  if Ascii.eqb c backslash then slash else c.

Definition replaceBackslashes (s : string) : string :=
  map_chars replace_backslash_char s.

(** [s.toLowerCase()], on the letters A to Z *)
Definition toLowerCaseChar (c : ascii) : ascii :=
  let n := nat_of_ascii c in
  if (65 <=? n) && (n <=? 90) then ascii_of_nat (n + 32) else c.

Definition toLowerCase (s : string) : string := map_chars toLowerCaseChar s.

(** Strings of ASCII characters (every code unit below 128).  On these
    [toLowerCase] above is the source's [String.prototype.toLowerCase];
    on other strings the source also lower-cases the cased letters
    outside A to Z, and may change the length, which the model does
    not.  Statements that depend on lower-casing are made for ASCII
    strings. *)
Definition isAsciiChar (c : ascii) : bool := nat_of_ascii c <? 128.

Fixpoint isAscii (s : string) : bool :=
  match s with
  | EmptyString => true
  | String c s' => isAsciiChar c && isAscii s'
  end.

(** [s.endsWith(suffix)] *)
Fixpoint endsWith (s suffix : string) : bool :=
  String.eqb s suffix ||
  match s with
  | EmptyString => false
  | String _ s' => endsWith s' suffix
  end.

(** [s.startsWith(p)] *)
Definition startsWith (s p : string) : bool := String.prefix p s.

(** [s.slice(0, -1)] *)
Definition slice_0_neg1 (s : string) : string :=
  String.substring 0 (String.length s - 1) s.

(** [xs.join(sep)] *)
Definition join (sep : string) (xs : list string) : string :=
  String.concat sep xs.

(** [xs.includes(x)] on an array of strings *)
Definition includes (xs : list string) (x : string) : bool :=
  existsb (String.eqb x) xs.

(** [xs.some(f)] *)
Definition some {A} (f : A -> bool) (xs : list A) : bool := existsb f xs.

End JsString.

(** ** [path.ts] *)

Module PathUtils.
Import JsString.

Definition normalizePath (path : string) : string :=
  let normalized := replaceBackslashes path in
  let normalized :=
    if (1 <? String.length normalized) && endsWith normalized "/"
    then slice_0_neg1 normalized
    else normalized in
  toLowerCase normalized.

(** The second statement of [normalizePath] on its own. *)
Definition stripTrailingSlash (normalized : string) : string :=
  if (1 <? String.length normalized) && endsWith normalized "/"
  then slice_0_neg1 normalized
  else normalized.

Definition isSubpath (path parentPath : string) : bool :=
  let normalizedPath := normalizePath path in
  let normalizedParent := normalizePath parentPath in
  if String.eqb normalizedPath normalizedParent then false
  else startsWith normalizedPath (normalizedParent +:+ "/").

Definition isParentPath (path childPath : string) : bool :=
  isSubpath childPath path.

Definition findParentPaths (newPath : string) (existingPaths : list string)
  : list string :=
  List.filter (fun existing => isSubpath newPath existing) existingPaths.

Definition findChildPaths (newPath : string) (existingPaths : list string)
  : list string :=
  List.filter (fun existing => isSubpath existing newPath) existingPaths.

Record PathValidationResult := {
  isValid : bool;
  isDuplicate : bool;
  isSubpathOf : list string;
  hasSubpaths : list string;
  warnings : list string
}.

Definition validatePath (path : string) (existingPaths : list string)
  : PathValidationResult :=
  let warnings := [] in
  let normalizedPath := normalizePath path in
  let isDuplicate :=
    some (fun existing => String.eqb (normalizePath existing) normalizedPath)
         existingPaths in
  let warnings :=
    if isDuplicate then warnings ++ ["This path is already in the list"]
    else warnings in
  let isSubpathOf := findParentPaths path existingPaths in
  let warnings :=
    if 0 <? length isSubpathOf
    then warnings ++ ["This path is already covered by: " +:+ join ", " isSubpathOf]
    else warnings in
  let hasSubpaths := findChildPaths path existingPaths in
  let warnings :=
    if 0 <? length hasSubpaths
    then warnings ++ ["This path would make redundant: " +:+ join ", " hasSubpaths]
    else warnings in
  let isValid := negb isDuplicate && (length isSubpathOf =? 0) in
  {| isValid := isValid;
     isDuplicate := isDuplicate;
     isSubpathOf := isSubpathOf;
     hasSubpaths := hasSubpaths;
     warnings := warnings |}.

End PathUtils.

(** ** [PathSelector.svelte] *)

Module PathSelector.
Import JsString PathUtils.

Record InvalidPath := {
  ip_path : string;
  ip_validation : PathValidationResult
}.

(** The two pieces of state [handlePathAdded] touches: the store's
    [scanPaths] and the component's [invalidPaths]. *)
Record Selector := {
  scanPaths : list string;
  invalidPaths : list InvalidPath
}.

Definition pushInvalid (invalid : list InvalidPath) (p : string)
           (v : PathValidationResult) : list InvalidPath :=
  if some (fun ip => String.eqb (ip_path ip) p) invalid
  then invalid
  else invalid ++ [{| ip_path := p; ip_validation := v |}].

(** The second parameter of the source function, [hasSubpaths], is never
    read by its body and is left out. *)
Definition handlePathAdded (st : Selector) (path : string) : Selector :=
  let validation := validatePath path (scanPaths st) in
  if isValid validation
     || ((0 <? length (hasSubpaths validation))
         && negb (isDuplicate validation)
         && (length (isSubpathOf validation) =? 0))
  then
    let newPaths :=
      List.filter (fun p => negb (includes (hasSubpaths validation) p))
                  (scanPaths st) ++ [path] in
    let invalid' :=
      fold_left
        (fun inv subpath => pushInvalid inv subpath (validatePath subpath newPaths))
        (hasSubpaths validation) (invalidPaths st) in
    {| scanPaths := newPaths; invalidPaths := invalid' |}
  else
    {| scanPaths := scanPaths st;
       invalidPaths := pushInvalid (invalidPaths st) path validation |}.

Definition emptySelector : Selector := {| scanPaths := []; invalidPaths := [] |}.

Definition addAll (st : Selector) (paths : list string) : Selector :=
  fold_left handlePathAdded paths st.

(** The path-set invariant with "sub-path" read as the test that
    [isSubpath] performs: two roots are unrelated when their normal forms
    differ and [isSubpath] answers [false] both ways. *)
Definition unrelated (a b : string) : Prop :=
  normalizePath a <> normalizePath b
  /\ isSubpath a b = false
  /\ isSubpath b a = false.

Fixpoint pairwiseUnrelated (roots : list string) : Prop :=
  match roots with
  | [] => True
  | r :: rest => Forall (unrelated r) rest /\ pairwiseUnrelated rest
  end.

End PathSelector.

(** ** [routes/compress/+page.svelte] *)

Module CompressPage.

(** *** Data of the API layer ([lib/api/index.ts]) *)

Record CompressibleFile := {
  cf_path : string;
  cf_original_size : N;
  cf_estimated_compressed_size : N;
  cf_estimated_savings : N;
  cf_plugin_name : string
}.

Record InPlaceCompressionResult := {
  success : bool;
  path : string;
  backup_path : option string;
  original_size : option N;
  compressed_size : option N;
  savings : option N;
  plugin_name : option string;
  error : option string
}.

(** What a rejected promise carries: an [Error] object with its
    [message], or any other value. *)
Inductive Thrown :=
| ErrorObject (message : string)
| OtherValue.

(** How the promise returned by [compressFilesInPlace] settles. *)
Inductive Settled :=
| Fulfilled (results : list InPlaceCompressionResult)
| Rejected (err : Thrown).

(** [err instanceof Error ? err.message : "Unknown error"] *)
Definition errorText (err : Thrown) : string :=
  match err with
  | ErrorObject message => message
  | OtherValue => "Unknown error"
  end.

(** The object literal appended by the [catch] branch of the worker. *)
Definition failureResult (filePath : string) (err : Thrown)
  : InPlaceCompressionResult :=
  {| success := false;
     path := filePath;
     backup_path := None;
     original_size := None;
     compressed_size := None;
     savings := None;
     plugin_name := None;
     error := Some (errorText err) |}.

(** *** Step management *)

Inductive Step := scan | confirm | process.

(** [selectedFiles] is a JavaScript [Set]: a duplicate-free sequence in
    insertion order; only its size matters below. *)
Record Page := {
  compressibleFiles : list CompressibleFile;
  selectedFiles : list string;
  currentStep : Step;
  appError : option string
}.

Definition goToConfirm (pg : Page) : Page :=
  if length (compressibleFiles pg) =? 0 then
    {| compressibleFiles := compressibleFiles pg;
       selectedFiles := selectedFiles pg;
       currentStep := currentStep pg;
       appError := Some "Please scan for files first" |}
  else
    {| compressibleFiles := compressibleFiles pg;
       selectedFiles := selectedFiles pg;
       currentStep := confirm;
       appError := appError pg |}.

(** [ScanStep.svelte]: the "Next: Review" button is part of the branch
    rendered when [compressibleFiles.length] is not 0, carries
    [disabled={selectedFiles.size === 0}] and calls [onNext], which the
    page binds to [goToConfirm]. *)
Definition nextButtonRendered (pg : Page) : bool :=
  match currentStep pg with
  | scan => negb (length (compressibleFiles pg) =? 0)
  | _ => false
  end.

Definition nextButtonDisabled (pg : Page) : bool :=
  length (selectedFiles pg) =? 0.

Definition clickNext (pg : Page) : Page :=
  if nextButtonRendered pg && negb (nextButtonDisabled pg)
  then goToConfirm pg
  else pg.

(** *** The worker pool of [handleCompress] *)

(** Where a [worker()] coroutine currently is.  A worker runs without
    interruption from one [await] to the next, so between events it is
    suspended at one of the two [await]s of the loop body or has
    returned. *)
Inductive Task :=
| AwaitCompress (currentIndex : nat) (filePath : string)
    (* await compressFilesInPlace([filePath], plugins) *)
| AwaitDelay
    (* await new Promise(resolve => setTimeout(resolve, 10)) *)
| Returned.

(** The variables shared by the workers.  [claimed] is a history
    variable that is not in the source: it records, in order, which
    worker executed [const currentIndex = fileIndex++] and the index
    it obtained. *)
Record Run := {
  fileIndex : nat;
  currentlyProcessing : list string;
  compressionResults : list InPlaceCompressionResult;
  processedCount : nat;
  pool : list Task;
  claimed : list (nat * nat)
}.

Definition setPool (r : Run) (tasks : list Task) : Run :=
  {| fileIndex := fileIndex r;
     currentlyProcessing := currentlyProcessing r;
     compressionResults := compressionResults r;
     processedCount := processedCount r;
     pool := tasks;
     claimed := claimed r |}.

Definition isSuspended (t : Task) : bool :=
  match t with
  | Returned => false
  | _ => true
  end.

Definition isAwaitCompress (t : Task) : bool :=
  match t with
  | AwaitCompress _ _ => true
  | _ => false
  end.

(** [Promise.all(pool)] resolves once every worker has returned. *)
Definition complete (r : Run) : bool :=
  forallb (fun t => negb (isSuspended t)) (pool r).

(** An event of the event loop: the promise a worker is suspended on
    settles and the worker is resumed. *)
Inductive Event :=
| CompressSettled (w : nat)
| DelayElapsed (w : nat).

Section WorkerPool.

Variable filesToCompress : list string.
Variable plugins : list string.
Variable poolSize : nat.
(** The external engine, as seen through [compressFilesInPlace]. *)
Variable compressFilesInPlace : list string -> list string -> Settled.

(** State set up by [handleCompress] before the pool is built. *)
Definition initialRun : Run :=
  {| fileIndex := 0;
     currentlyProcessing := [];
     compressionResults := [];
     processedCount := 0;
     pool := [];
     claimed := [] |}.

(** Worker [w] at the head of the [while] loop, up to its next
    suspension: either the loop exits, or an index is claimed, the
    path is added to [currentlyProcessing] and the engine is
    called.  ([filesToCompress[currentIndex]] is in range because of
    the loop condition.) *)
Definition loopHead (w : nat) (r : Run) : Run * Task :=
  if fileIndex r <? length filesToCompress then
    let currentIndex := fileIndex r in
    let filePath := nth currentIndex filesToCompress EmptyString in
    ({| fileIndex := S (fileIndex r);
        currentlyProcessing := currentlyProcessing r ++ [filePath];
        compressionResults := compressionResults r;
        processedCount := processedCount r;
        pool := pool r;
        claimed := claimed r ++ [(w, currentIndex)] |},
     AwaitCompress currentIndex filePath)
  else (r, Returned).

(** [pool.push(worker())]: the call runs the new worker up to its
    first [await]. *)
Definition spawnWorker (r : Run) : Run :=
  let '(r', t) := loopHead (length (pool r)) r in
  setPool r' (pool r' ++ [t]).

(** [for (let i = 0; i < poolSize; i++) pool.push(worker())] *)
Definition startPool : Run := Nat.iter poolSize spawnWorker initialRun.

(** The rest of the loop body, run when the engine's promise for
    [filePath] settles: the [try]/[catch], the removal from
    [currentlyProcessing], [processedCount++], up to the delay. *)
Definition afterCompress (w : nat) (filePath : string) (r : Run) : Run :=
  let compressionResults' :=
    match compressFilesInPlace [filePath] plugins with
    | Fulfilled results => compressionResults r ++ results
    | Rejected err => compressionResults r ++ [failureResult filePath err]
    end in
  {| fileIndex := fileIndex r;
     currentlyProcessing :=
       List.filter (fun p => negb (String.eqb p filePath))
                   (currentlyProcessing r);
     compressionResults := compressionResults';
     processedCount := S (processedCount r);
     pool := <[w := AwaitDelay]> (pool r);
     claimed := claimed r |}.

(** One event: the worker it names must be suspended on the matching
    [await]; it then runs to its next suspension. *)
Definition resume (e : Event) (r : Run) : option Run :=
  match e with
  | CompressSettled w =>
      match pool r !! w with
      | Some (AwaitCompress _ filePath) => Some (afterCompress w filePath r)
      | _ => None
      end
  | DelayElapsed w =>
      match pool r !! w with
      | Some AwaitDelay =>
          let '(r', t) := loopHead w r in
          Some (setPool r' (<[w := t]> (pool r')))
      | _ => None
      end
  end.

Fixpoint exec (events : list Event) (r : Run) : option Run :=
  match events with
  | [] => Some r
  | e :: rest =>
      match resume e r with
      | Some r' => exec rest r'
      | None => None
      end
  end.

(** The states a run can be observed in. *)
Definition reachable (r : Run) : Prop :=
  exists events, exec events startPool = Some r.

(** A scheduler used to run the pool to completion: resume the first
    worker that is still suspended. *)
Definition nextEvent (r : Run) : option Event :=
  match list_find (fun t => isSuspended t = true) (pool r) with
  | Some (w, AwaitCompress _ _) => Some (CompressSettled w)
  | Some (w, AwaitDelay) => Some (DelayElapsed w)
  | _ => None
  end.

Fixpoint runFrom (fuel : nat) (r : Run) : Run :=
  match fuel with
  | 0 => r
  | S fuel' =>
      match nextEvent r with
      | Some e =>
          match resume e r with
          | Some r' => runFrom fuel' r'
          | None => r
          end
      | None => r
      end
  end.

(** Number of events a run can still take. *)
Definition taskWeight (t : Task) : nat :=
  match t with
  | AwaitCompress _ _ => 2
  | AwaitDelay => 1
  | Returned => 0
  end.

Definition remainingWork (r : Run) : nat :=
  3 * (length filesToCompress - fileIndex r)
  + list_sum (map taskWeight (pool r)).

(** The state after [k] iterations of the [for] loop, in closed form:
    the first [min k (length filesToCompress)] workers hold the indices
    they were created with, the others found nothing to claim. *)
Definition spawned (k : nat) : Run :=
  let m := min k (length filesToCompress) in
  {| fileIndex := m;
     currentlyProcessing := take m filesToCompress;
     compressionResults := [];
     processedCount := 0;
     pool := map (fun i => AwaitCompress i (nth i filesToCompress EmptyString))
                 (seq 0 m)
             ++ replicate (k - m) Returned;
     claimed := map (fun i => (i, i)) (seq 0 m) |}.

(** What the worker appends to [compressionResults] for one path. *)
Definition recorded (filePath : string) : list InPlaceCompressionResult :=
  match compressFilesInPlace [filePath] plugins with
  | Fulfilled results => results
  | Rejected err => [failureResult filePath err]
  end.

(** The paths whose engine call is pending. *)
Definition pendingPath (t : Task) : list string :=
  match t with
  | AwaitCompress _ filePath => [filePath]
  | _ => []
  end.

Definition pendingPaths (tasks : list Task) : list string :=
  flat_map pendingPath tasks.

(** The invariant of the shared variables; [finished] lists the paths
    whose iteration is over, in completion order. *)
Definition poolInvariant (r : Run) : Prop :=
  fileIndex r <= length filesToCompress
  /\ map snd (claimed r) = seq 0 (fileIndex r)
  /\ Forall (fun c => fst c < length (pool r)) (claimed r)
  /\ (exists finished,
        compressionResults r = flat_map recorded finished
        /\ finished ++ pendingPaths (pool r)
             ≡ₚ take (fileIndex r) filesToCompress
        /\ processedCount r = length finished)
  /\ currentlyProcessing r ⊆+ pendingPaths (pool r)
  /\ (In Returned (pool r) -> fileIndex r = length filesToCompress).

(** The indices whose engine call is pending. *)
Definition heldIndex (t : Task) : list nat :=
  match t with
  | AwaitCompress currentIndex _ => [currentIndex]
  | _ => []
  end.

Definition heldIndices (tasks : list Task) : list nat :=
  flat_map heldIndex tasks.

(** What has become of the claimed indices: a worker suspended on the
    engine call holds an index it has claimed itself, together with the
    path planned at that index, and every claimed index is either held
    by such a worker or [finished], its outcome recorded. *)
Definition dispatchInvariant (r : Run) : Prop :=
  (forall w i p, pool r !! w = Some (AwaitCompress i p) ->
                 filesToCompress !! i = Some p /\ In (w, i) (claimed r))
  /\ exists finished,
       map snd (claimed r) ≡ₚ finished ++ heldIndices (pool r)
       /\ compressionResults r
          = flat_map (fun i => recorded (nth i filesToCompress EmptyString))
                     finished
       /\ processedCount r = length finished.

End WorkerPool.

(** [compressFilesInPlace] in web mode ([lib/api/index.ts], the branch
    taken when the page does not run inside Tauri). *)
Definition mockCompressFilesInPlace (filePaths pluginOrders : list string)
  : Settled :=
  Fulfilled
    (map (fun p =>
            {| success := true;
               path := p;
               backup_path := Some (p +:+ ".backup");
               original_size := Some 1024000%N;
               compressed_size := Some 716800%N;
               savings := Some 307200%N;
               plugin_name := Some "WebP Converter";
               error := None |})
         filePaths).

End CompressPage.


(** ** The rest of [PathSelector.svelte] and the store operations it calls
    ([lib/stores/app.ts]).  Only the [scanPaths] component of the store is
    kept; each store operation also hands the new list to [saveToStorage],
    which is not part of these sources. *)

Module PathSelectorOps.
Import JsString PathUtils PathSelector.

(** [removeScanPath]: [state.scanPaths.filter(p => p !== path)] *)
Definition removeScanPath (paths : list string) (path : string) : list string :=
  List.filter (fun p => negb (String.eqb p path)) paths.

(** [addScanPath]: the loop returns the state unchanged on the first
    entry that is [===] to [path]; otherwise the path is appended. *)
Definition addScanPath (paths : list string) (path : string) : list string :=
  if some (fun pathItem => String.eqb pathItem path) paths
  then paths
  else paths ++ [path].

Definition removePath (st : Selector) (path : string) : Selector :=
  {| scanPaths := removeScanPath (scanPaths st) path;
     invalidPaths := invalidPaths st |}.

Definition removeInvalidPath (st : Selector) (path : string) : Selector :=
  {| scanPaths := scanPaths st;
     invalidPaths :=
       List.filter (fun ip => negb (String.eqb (ip_path ip) path))
                   (invalidPaths st) |}.

Definition clearAllPaths (st : Selector) : Selector :=
  {| scanPaths := []; invalidPaths := [] |}.

Definition clearInvalidPaths (st : Selector) : Selector :=
  {| scanPaths := scanPaths st; invalidPaths := [] |}.

End PathSelectorOps.

(** ** The other functions of [routes/compress/+page.svelte] *)

Module PageOps.
Import JsString CompressPage.

Record CompressionPlugin := {
  plugin_id : string;            (* name *)
  plugin_description : string;
  plugin_version : string
}.

Record RejectionReason := {
  rr_plugin_name : string;
  rr_reason : string
}.

Record RejectedFile := {
  rf_path : string;
  rf_size : N;
  rf_extension : string;
  rf_rejection_reasons : list RejectionReason
}.

Record ScanCompressibleResult := {
  compressible : list CompressibleFile;
  rejected : list RejectedFile
}.

(** How the promise returned by [scanCompressibleFiles] settles. *)
Inductive ScanSettled :=
| ScanFulfilled (result : ScanCompressibleResult)
| ScanRejected (err : Thrown).

(** *** JavaScript [Set<string>]: a duplicate-free sequence in insertion
    order *)

Definition setHas (s : list string) (x : string) : bool :=
  existsb (String.eqb x) s.

Definition setDelete (s : list string) (x : string) : list string :=
  List.filter (fun y => negb (String.eqb y x)) s.

Definition setAdd (s : list string) (x : string) : list string :=
  if setHas s x then s else s ++ [x].

(** [new Set(array)] *)
Definition setOfArray (xs : list string) : list string :=
  fold_left setAdd xs [].

(** *** Plugins *)

Definition togglePlugin (activePlugins : list string) (pluginName : string)
  : list string :=
  if setHas activePlugins pluginName
  then setDelete activePlugins pluginName
  else setAdd activePlugins pluginName.

Definition getActivePlugins (availablePlugins : list CompressionPlugin)
           (activePlugins : list string) : list string :=
  map plugin_id
      (List.filter (fun p => setHas activePlugins (plugin_id p))
                   availablePlugins).

(** [movePluginDown]: the guard [index < availablePlugins.length - 1]
    keeps both positions in range. *)
Definition movePluginDown (availablePlugins : list CompressionPlugin)
           (index : nat) : list CompressionPlugin :=
  if index <? length availablePlugins - 1 then
    match availablePlugins !! index, availablePlugins !! S index with
    | Some a, Some b => <[S index := a]> (<[index := b]> availablePlugins)
    | _, _ => availablePlugins
    end
  else availablePlugins.

(** [movePluginUp]: the guard is [index > 0] only.  For an index past
    the end the source stores [undefined] into the array; that case is
    outside this model and gives [None]. *)
Definition movePluginUp (availablePlugins : list CompressionPlugin)
           (index : nat) : option (list CompressionPlugin) :=
  if 0 <? index then
    match availablePlugins !! (index - 1), availablePlugins !! index with
    | Some a, Some b =>
        Some (<[index := a]> (<[index - 1 := b]> availablePlugins))
    | _, _ => None
    end
  else Some availablePlugins.

(** *** File selection *)

Definition toggleFileSelection (selectedFiles : list string) (path : string)
  : list string :=
  if setHas selectedFiles path
  then setDelete selectedFiles path
  else setAdd selectedFiles path.

Definition toggleAllFiles (compressibleFiles : list CompressibleFile)
           (selectedFiles : list string) : list string :=
  if length selectedFiles =? length compressibleFiles
  then []
  else setOfArray (map cf_path compressibleFiles).

(** *** The page variables *)

Record PageVars := {
  pv_scanPaths : list string;                 (* $appState.scanPaths *)
  pv_error : option string;                   (* $appState.error *)
  pv_availablePlugins : list CompressionPlugin;
  pv_activePlugins : list string;
  pv_scanning : bool;
  pv_compressibleFiles : list CompressibleFile;
  pv_rejectedFiles : list RejectedFile;
  pv_selectedFiles : list string;
  pv_compressing : bool;
  pv_compressionResults : list InPlaceCompressionResult;
  pv_poolSize : nat;
  pv_processedCount : nat;
  pv_totalToProcess : nat;
  pv_currentlyProcessing : list string;
  pv_currentStep : Step
}.

Definition setError (pv : PageVars) (e : option string) : PageVars :=
  {| pv_scanPaths := pv_scanPaths pv;
     pv_error := e;
     pv_availablePlugins := pv_availablePlugins pv;
     pv_activePlugins := pv_activePlugins pv;
     pv_scanning := pv_scanning pv;
     pv_compressibleFiles := pv_compressibleFiles pv;
     pv_rejectedFiles := pv_rejectedFiles pv;
     pv_selectedFiles := pv_selectedFiles pv;
     pv_compressing := pv_compressing pv;
     pv_compressionResults := pv_compressionResults pv;
     pv_poolSize := pv_poolSize pv;
     pv_processedCount := pv_processedCount pv;
     pv_totalToProcess := pv_totalToProcess pv;
     pv_currentlyProcessing := pv_currentlyProcessing pv;
     pv_currentStep := pv_currentStep pv |}.

(** The scan variables, which [handleScan] assigns together. *)
Definition setScan (pv : PageVars) (scanning : bool) (e : option string)
           (files : list CompressibleFile) (rej : list RejectedFile)
           (sel : list string) : PageVars :=
  {| pv_scanPaths := pv_scanPaths pv;
     pv_error := e;
     pv_availablePlugins := pv_availablePlugins pv;
     pv_activePlugins := pv_activePlugins pv;
     pv_scanning := scanning;
     pv_compressibleFiles := files;
     pv_rejectedFiles := rej;
     pv_selectedFiles := sel;
     pv_compressing := pv_compressing pv;
     pv_compressionResults := pv_compressionResults pv;
     pv_poolSize := pv_poolSize pv;
     pv_processedCount := pv_processedCount pv;
     pv_totalToProcess := pv_totalToProcess pv;
     pv_currentlyProcessing := pv_currentlyProcessing pv;
     pv_currentStep := pv_currentStep pv |}.

(** [handleScan] up to [await scanCompressibleFiles(...)]: the two
    guards, then the reset of the previous scan.  The second component
    is the request sent to the engine (paths and active plugin names;
    the filter configuration is passed through untouched and is not
    modelled), or [None] when a guard stopped the scan. *)
Definition handleScan_begin (pv : PageVars)
  : PageVars * option (list string * list string) :=
  if length (pv_scanPaths pv) =? 0 then
    (setError pv (Some "Please add paths to scan"), None)
  else if length (pv_activePlugins pv) =? 0 then
    (setError pv (Some "Please activate at least one plugin"), None)
  else
    (setScan pv true None [] [] [],
     Some (pv_scanPaths pv,
           getActivePlugins (pv_availablePlugins pv) (pv_activePlugins pv))).

(** The rest of [handleScan], once the engine's promise has settled. *)
Definition handleScan_settle (outcome : ScanSettled) (pv : PageVars)
  : PageVars :=
  match outcome with
  | ScanFulfilled result =>
      setScan pv false (pv_error pv)
              (compressible result) (rejected result)
              (setOfArray (map cf_path (compressible result)))
  | ScanRejected err =>
      setScan pv false
              (Some match err with
                    | ErrorObject message => message
                    | OtherValue => "Failed to scan files"
                    end)
              (pv_compressibleFiles pv) (pv_rejectedFiles pv)
              (pv_selectedFiles pv)
  end.

(** [handleScan] with no other handler running in between. *)
Definition handleScan
           (scanCompressibleFiles : list string -> list string -> ScanSettled)
           (pv : PageVars) : PageVars :=
  match handleScan_begin pv with
  | (pv', Some (paths, plugins)) =>
      handleScan_settle (scanCompressibleFiles paths plugins) pv'
  | (pv', None) => pv'
  end.

(** The variables [handleCompress] and its workers assign. *)
Definition setCompress (pv : PageVars) (e : option string) (compressing : bool)
           (results : list InPlaceCompressionResult) (processed total : nat)
           (inFlight : list string) (step : Step) : PageVars :=
  {| pv_scanPaths := pv_scanPaths pv;
     pv_error := e;
     pv_availablePlugins := pv_availablePlugins pv;
     pv_activePlugins := pv_activePlugins pv;
     pv_scanning := pv_scanning pv;
     pv_compressibleFiles := pv_compressibleFiles pv;
     pv_rejectedFiles := pv_rejectedFiles pv;
     pv_selectedFiles := pv_selectedFiles pv;
     pv_compressing := compressing;
     pv_compressionResults := results;
     pv_poolSize := pv_poolSize pv;
     pv_processedCount := processed;
     pv_totalToProcess := total;
     pv_currentlyProcessing := inFlight;
     pv_currentStep := step |}.

(** [handleCompress], given the order in which the promises of the
    workers settle.  With an empty selection only the error is set.
    Otherwise the page enters the Process step, the pool is built over
    [Array.from(selectedFiles)] and run; the page variables
    [compressionResults], [processedCount] and [currentlyProcessing] are
    the ones of the run, and the [finally] block clears
    [compressing] and [currentlyProcessing].  The result is [None] when
    [events] is not a schedule that takes the pool to completion. *)
Definition handleCompress
           (compressFilesInPlace : list string -> list string -> Settled)
           (events : list Event) (pv : PageVars) : option PageVars :=
  if length (pv_selectedFiles pv) =? 0 then
    Some (setError pv (Some "Please select files to compress"))
  else
    let filesToCompress := pv_selectedFiles pv in
    let plugins :=
      getActivePlugins (pv_availablePlugins pv) (pv_activePlugins pv) in
    match exec filesToCompress plugins compressFilesInPlace events
               (startPool filesToCompress (pv_poolSize pv)) with
    | Some r =>
        if complete r then
          Some (setCompress pv None false (compressionResults r)
                            (processedCount r) (length filesToCompress)
                            [] process)
        else None
    | None => None
    end.

(** The invariant of a pool of one worker; [finished] lists the paths
    whose iteration is over. *)
Definition singleWorkerInvariant (files plugins : list string)
           (engine : list string -> list string -> Settled) (r : Run) : Prop :=
  length (pool r) = 1
  /\ exists finished,
       compressionResults r = flat_map (recorded plugins engine) finished
       /\ finished ++ pendingPaths (pool r) = take (fileIndex r) files
       /\ processedCount r = length finished.

Definition startNewScan (pv : PageVars) : PageVars :=
  {| pv_scanPaths := pv_scanPaths pv;
     pv_error := pv_error pv;
     pv_availablePlugins := pv_availablePlugins pv;
     pv_activePlugins := pv_activePlugins pv;
     pv_scanning := pv_scanning pv;
     pv_compressibleFiles := [];
     pv_rejectedFiles := [];
     pv_selectedFiles := [];
     pv_compressing := pv_compressing pv;
     pv_compressionResults := [];
     pv_poolSize := pv_poolSize pv;
     pv_processedCount := 0;
     pv_totalToProcess := 0;
     pv_currentlyProcessing := [];
     pv_currentStep := scan |}.

End PageOps.

(** * Properties of the path utilities *)

Module PathTheory.
Import JsString PathUtils PathSelector.

(** ** Characters *)

Lemma toLowerCaseChar_idem c :
  toLowerCaseChar (toLowerCaseChar c) = toLowerCaseChar c.
Proof. destruct c as [[] [] [] [] [] [] [] []]; vm_compute; reflexivity. Qed.

Lemma replace_backslash_char_idem c :
  replace_backslash_char (replace_backslash_char c) = replace_backslash_char c.
Proof. destruct c as [[] [] [] [] [] [] [] []]; vm_compute; reflexivity. Qed.

Lemma replace_lower_char c :
  replace_backslash_char (toLowerCaseChar c)
  = toLowerCaseChar (replace_backslash_char c).
Proof. destruct c as [[] [] [] [] [] [] [] []]; vm_compute; reflexivity. Qed.

Lemma toLowerCaseChar_slash c :
  Ascii.eqb (toLowerCaseChar c) slash = Ascii.eqb c slash.
Proof. destruct c as [[] [] [] [] [] [] [] []]; vm_compute; reflexivity. Qed.

(** ** Strings *)

Lemma map_chars_length f s : String.length (map_chars f s) = String.length s.
Proof. induction s as [|c s IH]; simpl; congruence. Qed.

Lemma map_chars_compose f g s :
  map_chars f (map_chars g s) = map_chars (fun c => f (g c)) s.
Proof. induction s as [|c s IH]; simpl; congruence. Qed.

Lemma map_chars_ext f g s :
  (forall c, f c = g c) -> map_chars f s = map_chars g s.
Proof. intros E. induction s as [|c s IH]; simpl; congruence. Qed.

Lemma map_chars_substring f n s :
  String.substring 0 n (map_chars f s) = map_chars f (String.substring 0 n s).
Proof.
  revert n. induction s as [|c s IH]; intros [|n]; simpl; try reflexivity.
  now rewrite IH.
Qed.

Lemma map_chars_slice f s :
  slice_0_neg1 (map_chars f s) = map_chars f (slice_0_neg1 s).
Proof. unfold slice_0_neg1. now rewrite map_chars_length, map_chars_substring. Qed.

Lemma toLowerCase_idem s : toLowerCase (toLowerCase s) = toLowerCase s.
Proof.
  unfold toLowerCase. rewrite map_chars_compose.
  apply map_chars_ext, toLowerCaseChar_idem.
Qed.

Lemma replaceBackslashes_idem s :
  replaceBackslashes (replaceBackslashes s) = replaceBackslashes s.
Proof.
  unfold replaceBackslashes. rewrite map_chars_compose.
  apply map_chars_ext, replace_backslash_char_idem.
Qed.

Lemma replaceBackslashes_toLowerCase s :
  replaceBackslashes (toLowerCase s) = toLowerCase (replaceBackslashes s).
Proof.
  unfold replaceBackslashes, toLowerCase. rewrite !map_chars_compose.
  apply map_chars_ext, replace_lower_char.
Qed.

Lemma map_chars_eqb_empty f s :
  String.eqb (map_chars f s) EmptyString = String.eqb s EmptyString.
Proof. destruct s; reflexivity. Qed.

Lemma endsWith_slash_toLowerCase s :
  endsWith (toLowerCase s) "/" = endsWith s "/".
Proof.
  induction s as [|c s IH]; [reflexivity|].
  cbn [toLowerCase map_chars endsWith]. fold (toLowerCase s). rewrite IH.
  f_equal. cbn [String.eqb]. fold slash.
  rewrite toLowerCaseChar_slash.
  destruct (Ascii.eqb c slash); [|reflexivity].
  unfold toLowerCase. apply map_chars_eqb_empty.
Qed.

Lemma endsWith_app pre suf : endsWith (pre +:+ suf) suf = true.
Proof.
  induction pre as [|c pre IH]; simpl.
  - destruct suf; simpl; rewrite ?Ascii.eqb_refl, ?String.eqb_refl; reflexivity.
  - rewrite IH. apply orb_true_r.
Qed.

Lemma endsWith_inv s suf :
  endsWith s suf = true -> exists pre, s = pre +:+ suf.
Proof.
  induction s as [|c s IH]; cbn [endsWith]; intros H.
  - rewrite orb_false_r in H. apply String.eqb_eq in H. now exists EmptyString.
  - apply orb_true_iff in H as [H|H].
    + apply String.eqb_eq in H. now exists EmptyString.
    + destruct (IH H) as [pre ->]. now exists (String c pre).
Qed.

Lemma substring_app_l pre s :
  String.substring 0 (String.length pre) (pre +:+ s) = pre.
Proof.
  induction pre as [|c pre IH]; simpl.
  - destruct s; reflexivity.
  - now rewrite IH.
Qed.

Lemma length_app_single pre c :
  String.length (pre +:+ String c EmptyString) = S (String.length pre).
Proof. induction pre as [|d pre IH]; simpl; congruence. Qed.

Lemma slice_app_single pre c :
  slice_0_neg1 (pre +:+ String c EmptyString) = pre.
Proof.
  unfold slice_0_neg1. rewrite length_app_single.
  replace (S (String.length pre) - 1) with (String.length pre) by lia.
  apply substring_app_l.
Qed.

Lemma app_assoc_single pre c d :
  (pre +:+ String c EmptyString) +:+ String d EmptyString
  = pre +:+ String c (String d EmptyString).
Proof.
  induction pre as [|e pre IH]; [reflexivity|].
  change (String e ((pre +:+ String c EmptyString) +:+ String d EmptyString)
          = String e (pre +:+ String c (String d EmptyString))).
  now rewrite IH.
Qed.


(** ** [normalizePath] *)

Local Abbreviation strip := stripTrailingSlash.

Lemma normalizePath_unfold p :
  normalizePath p = toLowerCase (strip (replaceBackslashes p)).
Proof. reflexivity. Qed.

Lemma strip_toLowerCase s : strip (toLowerCase s) = toLowerCase (strip s).
Proof.
  unfold stripTrailingSlash.
  unfold toLowerCase at 1. rewrite map_chars_length.
  fold (toLowerCase s). rewrite endsWith_slash_toLowerCase.
  destruct ((1 <? String.length s) && endsWith s "/"); [|reflexivity].
  apply map_chars_slice.
Qed.

Lemma strip_replaceBackslashes s :
  replaceBackslashes (strip (replaceBackslashes s)) = strip (replaceBackslashes s).
Proof.
  unfold stripTrailingSlash.
  destruct ((1 <? String.length (replaceBackslashes s))
            && endsWith (replaceBackslashes s) "/").
  - unfold replaceBackslashes at 1. rewrite <- map_chars_slice.
    fold (replaceBackslashes (replaceBackslashes s)).
    now rewrite replaceBackslashes_idem.
  - apply replaceBackslashes_idem.
Qed.

(** Normalizing twice strips twice. *)
Lemma normalizePath_twice p :
  normalizePath (normalizePath p)
  = toLowerCase (strip (strip (replaceBackslashes p))).
Proof.
  rewrite !normalizePath_unfold.
  rewrite replaceBackslashes_toLowerCase, strip_replaceBackslashes.
  rewrite strip_toLowerCase. apply toLowerCase_idem.
Qed.

Lemma slice_length s : String.length (slice_0_neg1 s) = String.length s - 1.
Proof.
  unfold slice_0_neg1.
  assert (G : forall n t, n <= String.length t ->
              String.length (String.substring 0 n t) = n).
  { induction n as [|n IH]; intros [|c t] Hn; simpl in *;
      try lia; try reflexivity.
    rewrite IH; lia. }
  apply G. lia.
Qed.


Lemma normalizePath_length p :
  String.length (normalizePath p)
  = String.length (strip (replaceBackslashes p)).
Proof. rewrite normalizePath_unfold. apply map_chars_length. Qed.

(** The converse of the idempotence criterion: below two trailing
    separators a second normalization shortens the path again. *)
Lemma normalizePath_twice_shorter p :
  2 < String.length p ->
  endsWith (replaceBackslashes p) "//" = true ->
  String.length (normalizePath (normalizePath p))
  < String.length (normalizePath p).
Proof.
  intros Hl He.
  rewrite normalizePath_twice, normalizePath_length.
  unfold toLowerCase. rewrite map_chars_length. unfold stripTrailingSlash.
  set (n := replaceBackslashes p) in *.
  assert (Hn : String.length n = String.length p)
    by apply map_chars_length.
  destruct (endsWith_inv _ _ He) as [pre Hpre].
  assert (E1 : n = (pre +:+ "/") +:+ "/")
    by (rewrite Hpre; symmetry; apply (app_assoc_single pre slash slash)).
  assert (Es : endsWith n "/" = true) by (rewrite E1; apply endsWith_app).
  assert (El : (1 <? String.length n) = true) by (apply Nat.ltb_lt; lia).
  rewrite El, Es. cbn [andb].
  assert (Esl : slice_0_neg1 n = pre +:+ "/")
    by (rewrite E1; apply (slice_app_single (pre +:+ "/") slash)).
  assert (Es' : endsWith (slice_0_neg1 n) "/" = true)
    by (rewrite Esl; apply endsWith_app).
  assert (El' : (1 <? String.length (slice_0_neg1 n)) = true)
    by (apply Nat.ltb_lt; rewrite slice_length; lia).
  rewrite El', Es'. cbn [andb].
  rewrite !slice_length. lia.
Qed.

(** ** ASCII strings *)

Lemma toLowerCaseChar_ascii c :
  isAsciiChar (toLowerCaseChar c) = isAsciiChar c.
Proof. destruct c as [[] [] [] [] [] [] [] []]; vm_compute; reflexivity. Qed.

Lemma replace_backslash_char_ascii c :
  isAsciiChar (replace_backslash_char c) = isAsciiChar c.
Proof. destruct c as [[] [] [] [] [] [] [] []]; vm_compute; reflexivity. Qed.

Lemma map_chars_ascii f s :
  (forall c, isAsciiChar (f c) = isAsciiChar c) ->
  isAscii (map_chars f s) = isAscii s.
Proof.
  intros Hf. induction s as [|c s IH]; [reflexivity|].
  cbn [map_chars isAscii]. now rewrite Hf, IH.
Qed.

Lemma substring_ascii n s :
  isAscii s = true -> isAscii (String.substring 0 n s) = true.
Proof.
  revert n. induction s as [|c s IH]; intros [|n] H; try reflexivity.
  cbn [isAscii] in H. apply andb_true_iff in H as [Hc Hs].
  cbn [String.substring isAscii]. rewrite Hc. cbn. now apply IH.
Qed.

(** The normal form of an ASCII path is an ASCII path. *)
Lemma normalizePath_ascii p :
  isAscii p = true -> isAscii (normalizePath p) = true.
Proof.
  intros H. rewrite normalizePath_unfold. unfold toLowerCase.
  rewrite (map_chars_ascii _ _ toLowerCaseChar_ascii).
  assert (Hu : isAscii (replaceBackslashes p) = true).
  { unfold replaceBackslashes.
    now rewrite (map_chars_ascii _ _ replace_backslash_char_ascii). }
  unfold stripTrailingSlash.
  destruct ((1 <? String.length (replaceBackslashes p))
            && endsWith (replaceBackslashes p) "/"); [|exact Hu].
  unfold slice_0_neg1. now apply substring_ascii.
Qed.

(** C9.  The drive root [C:\] does not keep its trailing separator:
    after the separators are unified the string has length 3, so the
    guard [normalized.length > 1] lets the trailing [/] be removed and the
    result is [c:], not [c:/] as the unit test "should keep root slash"
    expects.  Only the one-character root [/] is kept as it is. *)
Theorem normalizePath_drive_root :
  normalizePath ("C:" +:+ String backslash EmptyString) = "c:"
  /\ normalizePath ("C:" +:+ String backslash EmptyString) <> "c:/"
  /\ normalizePath "/" = "/".
Proof. repeat split; try reflexivity. vm_compute. discriminate. Qed.




(** ** [validatePath] and [handlePathAdded] *)

Lemma unrelated_sym a b : unrelated a b -> unrelated b a.
Proof. unfold unrelated. intuition congruence. Qed.

Lemma pairwiseUnrelated_snoc l c :
  pairwiseUnrelated l -> Forall (fun x => unrelated x c) l ->
  pairwiseUnrelated (l ++ [c]).
Proof.
  induction l as [|x l IH]; simpl; intros Hl Hc.
  - split; [constructor | exact I].
  - destruct Hl as [Hx Hl]. inversion Hc; subst. split.
    + apply Forall_app. split; [assumption|]. now constructor.
    + now apply IH.
Qed.

Lemma pairwiseUnrelated_filter f l :
  pairwiseUnrelated l -> pairwiseUnrelated (List.filter f l).
Proof.
  induction l as [|x l IH]; simpl; [trivial|]. intros [Hx Hl].
  destruct (f x); simpl; [split|]; auto.
  apply List.Forall_forall. intros y Hy. apply List.filter_In in Hy as [Hy _].
  rewrite List.Forall_forall in Hx. auto.
Qed.

Lemma includes_filter (g : string -> bool) l a :
  In a l -> includes (List.filter g l) a = g a.
Proof.
  intros Ha. unfold includes. destruct (g a) eqn:Hg.
  - apply List.existsb_exists. exists a. split.
    + apply List.filter_In. auto.
    + apply String.eqb_refl.
  - destruct (existsb _ _) eqn:E; [|reflexivity].
    apply List.existsb_exists in E as (x & Hx & Hax).
    apply String.eqb_eq in Hax. subst x.
    apply List.filter_In in Hx as [_ Hx]. congruence.
Qed.

(** The guard of [handlePathAdded] is equivalent to [isValid]. *)
Lemma handlePathAdded_guard path roots :
  let v := validatePath path roots in
  isValid v || ((0 <? length (hasSubpaths v)) && negb (isDuplicate v)
                && (length (isSubpathOf v) =? 0))
  = isValid v.
Proof.
  cbn. destruct (some _ roots); cbn; [now rewrite andb_false_r|].
  destruct (length (findParentPaths path roots) =? 0); cbn;
    [reflexivity | now rewrite andb_false_r].
Qed.

Lemma handlePathAdded_scanPaths st path :
  scanPaths (handlePathAdded st path)
  = if isValid (validatePath path (scanPaths st))
    then List.filter (fun p => negb (isSubpath p path)) (scanPaths st) ++ [path]
    else scanPaths st.
Proof.
  unfold handlePathAdded. rewrite handlePathAdded_guard.
  destruct (isValid _); [|reflexivity]. cbn [scanPaths]. f_equal.
  cbn [hasSubpaths validatePath]. unfold findChildPaths.
  apply List.filter_ext_in. intros a Ha. f_equal.
  now apply (includes_filter (fun e => isSubpath e path)).
Qed.

Lemma isValid_inv path roots :
  isValid (validatePath path roots) = true ->
  forall r, In r roots ->
    normalizePath r <> normalizePath path /\ isSubpath path r = false.
Proof.
  cbn. intros H r Hr. apply andb_true_iff in H as [Hd Hs].
  apply negb_true_iff in Hd. apply Nat.eqb_eq in Hs. split.
  - intros E. apply not_true_iff_false in Hd. apply Hd.
    apply List.existsb_exists. exists r. split; [assumption|].
    now apply String.eqb_eq.
  - destruct (isSubpath path r) eqn:E; [|reflexivity].
    assert (Hin : In r (findParentPaths path roots))
      by (apply List.filter_In; auto).
    destruct (findParentPaths path roots); [destruct Hin | discriminate].
Qed.

(** What the code does maintain: relative to its own [isSubpath] test, an
    add keeps the roots pairwise unrelated. *)
Lemma handlePathAdded_pairwiseUnrelated st path :
  pairwiseUnrelated (scanPaths st) ->
  pairwiseUnrelated (scanPaths (handlePathAdded st path)).
Proof.
  intros Inv. rewrite handlePathAdded_scanPaths.
  destruct (isValid _) eqn:V; [|assumption].
  apply pairwiseUnrelated_snoc.
  - now apply pairwiseUnrelated_filter.
  - apply List.Forall_forall. intros x Hx.
    apply List.filter_In in Hx as [Hx Hc]. apply negb_true_iff in Hc.
    destruct (isValid_inv _ _ V x Hx) as [Hn Hp].
    repeat split; assumption.
Qed.

Lemma addAll_pairwiseUnrelated paths st :
  pairwiseUnrelated (scanPaths st) ->
  pairwiseUnrelated (scanPaths (addAll st paths)).
Proof.
  revert st. induction paths as [|p paths IH]; intros st Inv; [assumption|].
  apply IH. now apply handlePathAdded_pairwiseUnrelated.
Qed.

(** A valid add drops exactly the roots that [isSubpath] places under the
    new path. *)
Lemma handlePathAdded_drops_children st path r :
  isValid (validatePath path (scanPaths st)) = true ->
  In r (scanPaths (handlePathAdded st path)) <->
  r = path \/ (In r (scanPaths st) /\ isSubpath r path = false).
Proof.
  intros V. rewrite handlePathAdded_scanPaths, V.
  rewrite List.in_app_iff, List.filter_In, negb_true_iff. cbn [In].
  intuition congruence.
Qed.

(** C8.  With the file-system root among the scan roots the invariant is
    lost.  [normalizePath "/"] keeps its separator, so [isSubpath]
    compares against the prefix [//] and never recognises a path below
    the root: [/a] is accepted next to [/], and adding [/] next to [/a]
    removes nothing. *)
Theorem handlePathAdded_root_nesting :
  scanPaths (addAll emptySelector ["/"; "/a"]) = ["/"; "/a"]
  /\ scanPaths (addAll emptySelector ["/a"; "/"]) = ["/a"; "/"]
  /\ isValid (validatePath "/a" ["/"]) = true
  /\ hasSubpaths (validatePath "/" ["/a"]) = []
  /\ isSubpath "/a" "/" = false
  /\ normalizePath "/a" <> normalizePath "/"
  /\ startsWith (normalizePath "/a") (normalizePath "/") = true.
Proof. repeat split; try reflexivity. vm_compute. discriminate. Qed.

End PathTheory.

(** * Properties of the compression page *)

Module PoolTheory.
Import CompressPage.

Section Pool.

Variable files : list string.
Variable plugins : list string.
Variable poolSize : nat.
Variable engine : list string -> list string -> Settled.

Local Abbreviation N := (length files).
Local Abbreviation step := (resume files plugins engine).
Local Abbreviation run := (exec files plugins engine).
Local Abbreviation start := (startPool files poolSize).
Local Abbreviation Inv := (poolInvariant files plugins engine).
Local Abbreviation reach := (reachable files plugins poolSize engine).

Ltac simpl_run :=
  cbn [fileIndex currentlyProcessing compressionResults processedCount
       pool claimed setPool] in *.

(** ** Lists of tasks *)

Lemma pendingPaths_app l k :
  pendingPaths (l ++ k) = pendingPaths l ++ pendingPaths k.
Proof. apply flat_map_app. Qed.

Lemma tasks_split (tasks : list Task) w t0 :
  tasks !! w = Some t0 ->
  tasks = take w tasks ++ t0 :: drop (S w) tasks
  /\ forall t, <[w := t]> tasks = take w tasks ++ t :: drop (S w) tasks.
Proof.
  intros H. split.
  - symmetry. now apply take_drop_middle.
  - intros t. apply insert_take_drop. now apply lookup_lt_Some in H.
Qed.

Lemma pendingPaths_insert (tasks : list Task) w t0 t :
  tasks !! w = Some t0 ->
  exists rest,
    pendingPaths tasks ≡ₚ pendingPath t0 ++ rest
    /\ pendingPaths (<[w := t]> tasks) ≡ₚ pendingPath t ++ rest.
Proof.
  intros H. destruct (tasks_split _ _ _ H) as [E1 E2].
  exists (pendingPaths (take w tasks) ++ pendingPaths (drop (S w) tasks)).
  split.
  - rewrite E1 at 1. rewrite pendingPaths_app. cbn [pendingPaths flat_map].
    fold (pendingPaths (drop (S w) tasks)).
    rewrite !app_assoc. apply Permutation_app_tail, Permutation_app_comm.
  - rewrite E2, pendingPaths_app. cbn [pendingPaths flat_map].
    fold (pendingPaths (drop (S w) tasks)).
    rewrite !app_assoc. apply Permutation_app_tail, Permutation_app_comm.
Qed.

Lemma weight_insert (tasks : list Task) w t0 t :
  tasks !! w = Some t0 ->
  list_sum (map taskWeight (<[w := t]> tasks)) + taskWeight t0
  = list_sum (map taskWeight tasks) + taskWeight t.
Proof.
  intros H. destruct (tasks_split _ _ _ H) as [E1 E2].
  rewrite E2. rewrite E1 at 3.
  rewrite !map_app, !list_sum_app. simpl. lia.
Qed.

Lemma In_insert (tasks : list Task) w t x :
  In x (<[w := t]> tasks) -> x = t \/ In x tasks.
Proof.
  rewrite <- !list_elem_of_In. intros H.
  apply list_elem_of_lookup in H as [i Hi].
  destruct (decide (w = i)) as [->|Hne].
  - destruct (decide (i < length tasks)) as [Hlt|Hge].
    + rewrite list_lookup_insert_eq in Hi by assumption. left. congruence.
    + rewrite list_insert_ge in Hi by lia. right.
      apply list_elem_of_lookup. eauto.
  - rewrite list_lookup_insert_ne in Hi by assumption. right.
    apply list_elem_of_lookup. eauto.
Qed.

Lemma filter_submseteq_mono (f : string -> bool) (l k : list string) :
  l ⊆+ k -> List.filter f l ⊆+ List.filter f k.
Proof.
  induction 1 as [|x l k _ IH|x y l|x l k _ IH|l k m _ IH1 _ IH2]; simpl.
  - constructor.
  - destruct (f x); [now constructor | assumption].
  - destruct (f x), (f y); try reflexivity. apply submseteq_swap.
  - destruct (f x); [now constructor | assumption].
  - etransitivity; eassumption.
Qed.

Lemma filter_submseteq_self (f : string -> bool) (l : list string) :
  List.filter f l ⊆+ l.
Proof.
  induction l as [|x l IH]; simpl; [constructor|].
  destruct (f x); now constructor.
Qed.

Lemma filter_out_head (p : string) (l rest : list string) :
  l ⊆+ p :: rest ->
  List.filter (fun q => negb (String.eqb q p)) l ⊆+ rest.
Proof.
  intros H. apply (filter_submseteq_mono (fun q => negb (String.eqb q p))) in H.
  simpl in H. rewrite String.eqb_refl in H. simpl in H.
  etransitivity; [exact H | apply filter_submseteq_self].
Qed.

(** ** The loop head *)

Lemma loopHead_claim w r :
  fileIndex r < N ->
  loopHead files w r
  = ({| fileIndex := S (fileIndex r);
        currentlyProcessing :=
          currentlyProcessing r ++ [nth (fileIndex r) files EmptyString];
        compressionResults := compressionResults r;
        processedCount := processedCount r;
        pool := pool r;
        claimed := claimed r ++ [(w, fileIndex r)] |},
     AwaitCompress (fileIndex r) (nth (fileIndex r) files EmptyString)).
Proof.
  intros H. unfold loopHead.
  destruct (fileIndex r <? N) eqn:E; [reflexivity|].
  apply Nat.ltb_ge in E. lia.
Qed.

Lemma loopHead_exit w r :
  N <= fileIndex r -> loopHead files w r = (r, Returned).
Proof.
  intros H. unfold loopHead.
  destruct (fileIndex r <? N) eqn:E; [|reflexivity].
  apply Nat.ltb_lt in E. lia.
Qed.

Lemma take_S_nth (l : list string) i :
  i < length l -> take (S i) l = take i l ++ [nth i l EmptyString].
Proof.
  intros H. destruct (lookup_lt_is_Some_2 l i H) as [x Hx].
  rewrite (take_S_r l i x Hx). f_equal. f_equal.
  symmetry. now apply nth_lookup_Some.
Qed.

(** ** Preservation of the invariant *)

Lemma Inv_initial : Inv initialRun.
Proof.
  unfold poolInvariant; cbn. split; [lia|]. split; [reflexivity|].
  split; [constructor|]. split; [|split; [constructor | intros []]].
  exists []. repeat split. reflexivity.
Qed.

Lemma Inv_claim r w tasks :
  Inv r -> fileIndex r < N ->
  length (pool r) <= length tasks -> w < length tasks ->
  pendingPaths tasks
    ≡ₚ nth (fileIndex r) files EmptyString :: pendingPaths (pool r) ->
  (In Returned tasks -> In Returned (pool r)) ->
  Inv {| fileIndex := S (fileIndex r);
         currentlyProcessing :=
           currentlyProcessing r ++ [nth (fileIndex r) files EmptyString];
         compressionResults := compressionResults r;
         processedCount := processedCount r;
         pool := tasks;
         claimed := claimed r ++ [(w, fileIndex r)] |}.
Proof.
  intros (Ha & Hb & Hc & (fin & Hd1 & Hd2 & Hd3) & He & Hf) Hlt Hlen Hw Hp Hr.
  unfold poolInvariant; simpl_run. repeat split.
  - lia.
  - rewrite map_app, Hb, seq_S. reflexivity.
  - apply Forall_app. split.
    + eapply Forall_impl; [exact Hc|]. cbn. intros; lia.
    + constructor; [assumption | constructor].
  - exists fin. repeat split; try assumption.
    rewrite Hp, take_S_nth by assumption. rewrite <- Hd2.
    rewrite <- Permutation_middle. rewrite <- app_assoc.
    rewrite (app_assoc fin). apply Permutation_cons_append.
  - rewrite Hp. rewrite <- Permutation_cons_append. now apply submseteq_skip.
  - intros H. apply Hr, Hf in H. lia.
Qed.

Lemma Inv_exit r tasks :
  Inv r -> N <= fileIndex r ->
  length (pool r) <= length tasks ->
  pendingPaths tasks ≡ₚ pendingPaths (pool r) ->
  Inv (setPool r tasks).
Proof.
  intros (Ha & Hb & Hc & (fin & Hd1 & Hd2 & Hd3) & He & Hf) Hge Hlen Hp.
  unfold poolInvariant, setPool; simpl_run. repeat split; try assumption.
  - eapply Forall_impl; [exact Hc|]. cbn. intros; lia.
  - exists fin. repeat split; try assumption. now rewrite Hp.
  - now rewrite Hp.
  - intros _. lia.
Qed.

Lemma afterCompress_results w p r :
  compressionResults (afterCompress plugins engine w p r)
  = compressionResults r ++ recorded plugins engine p.
Proof. unfold afterCompress, recorded. cbn. now destruct (engine [p] plugins). Qed.

Lemma Inv_compress r w i p :
  Inv r -> pool r !! w = Some (AwaitCompress i p) ->
  Inv (afterCompress plugins engine w p r).
Proof.
  intros (Ha & Hb & Hc & (fin & Hd1 & Hd2 & Hd3) & He & Hf) Hw.
  destruct (pendingPaths_insert _ _ _ AwaitDelay Hw) as (rest & P1 & P2).
  cbn [pendingPath app] in P1, P2.
  unfold poolInvariant. rewrite afterCompress_results.
  unfold afterCompress; simpl_run. repeat split; try assumption.
  - now rewrite length_insert.
  - exists (fin ++ [p]). repeat split.
    + rewrite flat_map_app, Hd1. cbn [flat_map]. now rewrite app_nil_r.
    + rewrite P2, <- Hd2, P1, <- app_assoc. reflexivity.
    + rewrite length_app, Hd3. cbn. lia.
  - rewrite P2. apply filter_out_head. now rewrite <- P1.
  - intros H. apply In_insert in H as [H|H]; [discriminate | auto].
Qed.

Lemma Inv_spawn r : Inv r -> Inv (spawnWorker files r).
Proof.
  intros H. unfold spawnWorker.
  destruct (le_lt_dec N (fileIndex r)) as [Hge|Hlt].
  - rewrite loopHead_exit by assumption. apply Inv_exit; try assumption.
    + rewrite length_app. lia.
    + rewrite pendingPaths_app. cbn. now rewrite app_nil_r.
  - rewrite loopHead_claim by assumption. simpl_run.
    apply (Inv_claim r (length (pool r))); try assumption.
    + rewrite length_app. lia.
    + rewrite length_app. cbn. lia.
    + rewrite pendingPaths_app. cbn. symmetry. apply Permutation_cons_append.
    + intros Hr. apply in_app_or in Hr as [Hr|[Hr|[]]];
        [assumption | discriminate].
Qed.

Lemma Inv_step e r r' : Inv r -> step e r = Some r' -> Inv r'.
Proof.
  intros H Hs. destruct e as [w|w]; cbn in Hs.
  - destruct (pool r !! w) as [[i p| |]|] eqn:Hw; try discriminate.
    injection Hs as <-. eapply Inv_compress; eassumption.
  - destruct (pool r !! w) as [[i p| |]|] eqn:Hw; try discriminate.
    destruct (pendingPaths_insert _ _ _ Returned Hw) as (rest & P1 & P2).
    pose proof (lookup_lt_Some _ _ _ Hw) as Hlt.
    destruct (le_lt_dec N (fileIndex r)) as [Hge|Hlt'].
    + rewrite loopHead_exit in Hs by assumption. injection Hs as <-.
      apply Inv_exit; try assumption.
      * now rewrite length_insert.
      * now rewrite P1, P2.
    + rewrite loopHead_claim in Hs by assumption. injection Hs as <-.
      simpl_run.
      destruct (pendingPaths_insert _ _ _
                  (AwaitCompress (fileIndex r)
                     (nth (fileIndex r) files EmptyString)) Hw)
        as (rest' & P1' & P2').
      apply (Inv_claim r w); try assumption.
      * now rewrite length_insert.
      * now rewrite length_insert.
      * rewrite P2', P1'. reflexivity.
      * intros Hr. apply In_insert in Hr as [Hr|Hr];
          [discriminate | assumption].
Qed.

Lemma Inv_spawns k : Inv (Nat.iter k (spawnWorker files) initialRun).
Proof. induction k as [|k IH]; cbn; [apply Inv_initial | now apply Inv_spawn]. Qed.

Lemma Inv_run events r r' : Inv r -> run events r = Some r' -> Inv r'.
Proof.
  revert r. induction events as [|e events IH]; cbn; intros r H Hr.
  - now injection Hr as <-.
  - destruct (step e r) as [r1|] eqn:E; [|discriminate].
    eapply IH; [|eassumption]. eapply Inv_step; eassumption.
Qed.

Lemma Inv_reachable r : reach r -> Inv r.
Proof. intros [events H]. eapply Inv_run; [apply Inv_spawns | exact H]. Qed.

(** ** Size of the pool *)

Lemma spawnWorker_pool_length r :
  length (pool (spawnWorker files r)) = S (length (pool r)).
Proof.
  unfold spawnWorker, loopHead.
  destruct (fileIndex r <? N); unfold setPool; cbn;
    rewrite length_app; cbn; lia.
Qed.

Lemma spawns_pool_length k :
  length (pool (Nat.iter k (spawnWorker files) initialRun)) = k.
Proof.
  induction k as [|k IH]; [reflexivity|].
  rewrite Nat.iter_succ. now rewrite spawnWorker_pool_length, IH.
Qed.

Lemma step_pool_length e r r' :
  step e r = Some r' -> length (pool r') = length (pool r).
Proof.
  intros Hs. destruct e as [w|w]; cbn in Hs;
    destruct (pool r !! w) as [[i p| |]|] eqn:Hw; try discriminate.
  - injection Hs as <-. cbn. apply length_insert.
  - unfold loopHead in Hs. destruct (fileIndex r <? N);
      injection Hs as <-; cbn; apply length_insert.
Qed.

Lemma run_pool_length events r r' :
  run events r = Some r' -> length (pool r') = length (pool r).
Proof.
  revert r. induction events as [|e events IH]; cbn; intros r Hr.
  - now injection Hr as <-.
  - destruct (step e r) as [r1|] eqn:E; [|discriminate].
    rewrite (IH _ Hr). eapply step_pool_length; eassumption.
Qed.

Lemma reachable_pool_length r : reach r -> length (pool r) = poolSize.
Proof.
  intros [events H]. rewrite (run_pool_length _ _ _ H).
  apply spawns_pool_length.
Qed.

(** ** The pool right after it is built *)

Lemma spawnWorker_spawned k :
  spawnWorker files (spawned files k) = spawned files (S k).
Proof.
  unfold spawnWorker.
  assert (Hlen : length (pool (spawned files k)) = k).
  { cbn. rewrite length_app, length_map, length_seq, length_replicate. lia. }
  rewrite Hlen. clear Hlen.
  destruct (le_lt_dec N k) as [Hge|Hlt].
  - rewrite loopHead_exit by (cbn; lia). unfold setPool, spawned.
    simpl_run.
    replace (min k N) with N by lia. replace (min (S k) N) with N by lia.
    replace (S k - N) with (S (k - N)) by lia.
    rewrite replicate_S_end, app_assoc. reflexivity.
  - rewrite loopHead_claim by (cbn; lia). unfold setPool, spawned.
    simpl_run.
    replace (min k N) with k by lia. replace (min (S k) N) with (S k) by lia.
    replace (k - k) with 0 by lia. replace (S k - S k) with 0 by lia.
    rewrite seq_S, !map_app, <- take_S_nth by lia. cbn [replicate map app].
    rewrite !app_nil_r. reflexivity.
Qed.

Lemma spawns_closed k :
  Nat.iter k (spawnWorker files) initialRun = spawned files k.
Proof.
  induction k as [|k IH]; [reflexivity|].
  rewrite Nat.iter_succ, IH. apply spawnWorker_spawned.
Qed.

Lemma start_closed : start = spawned files poolSize.
Proof. apply spawns_closed. Qed.

(** ** Termination and progress *)

Lemma step_decreases e r r' :
  step e r = Some r' -> remainingWork files r' < remainingWork files r.
Proof.
  intros Hs. unfold remainingWork.
  destruct e as [w|w]; cbn in Hs;
    destruct (pool r !! w) as [[i p| |]|] eqn:Hw; try discriminate.
  - injection Hs as <-. unfold afterCompress; simpl_run.
    pose proof (weight_insert _ _ _ AwaitDelay Hw) as E. cbn in E. lia.
  - destruct (le_lt_dec N (fileIndex r)) as [Hge|Hlt].
    + rewrite loopHead_exit in Hs by assumption. injection Hs as <-.
      simpl_run.
      pose proof (weight_insert _ _ _ Returned Hw) as E. cbn in E. lia.
    + rewrite loopHead_claim in Hs by assumption. injection Hs as <-.
      simpl_run.
      pose proof (weight_insert _ _ _
                    (AwaitCompress (fileIndex r)
                       (nth (fileIndex r) files EmptyString)) Hw) as E.
      cbn in E. lia.
Qed.

Lemma run_bounded events r r' :
  run events r = Some r' ->
  length events + remainingWork files r' <= remainingWork files r.
Proof.
  revert r. induction events as [|e events IH]; cbn [exec length]; intros r Hr.
  - injection Hr as <-. lia.
  - destruct (step e r) as [r1|] eqn:E; [|discriminate].
    apply IH in Hr. apply step_decreases in E. lia.
Qed.

Lemma run_app ev1 ev2 r r1 :
  run ev1 r = Some r1 -> run (ev1 ++ ev2) r = run ev2 r1.
Proof.
  revert r. induction ev1 as [|e ev1 IH]; cbn; intros r Hr.
  - now injection Hr as <-.
  - destruct (step e r); [auto | discriminate].
Qed.

Lemma complete_true r :
  complete r = true <-> forall t, In t (pool r) -> t = Returned.
Proof.
  unfold complete. rewrite forallb_forall. split; intros H t Ht.
  - specialize (H t Ht). now destruct t.
  - now rewrite (H t Ht).
Qed.

(** The scheduler always finds an enabled event while a worker is
    suspended. *)
Lemma nextEvent_enabled r :
  complete r = false ->
  exists e r', nextEvent r = Some e /\ step e r = Some r'.
Proof.
  intros Hc. unfold nextEvent.
  destruct (list_find _ (pool r)) as [[w t]|] eqn:F.
  - apply list_find_Some in F as (Hw & Hs & _).
    destruct t as [i p| |]; [| |discriminate].
    + eexists _, _. split; [reflexivity|]. cbn. now rewrite Hw.
    + destruct (loopHead files w r) as [r0 t] eqn:L.
      exists (DelayElapsed w), (setPool r0 (<[w := t]> (pool r0))).
      split; [reflexivity|]. cbn. now rewrite Hw, L.
  - apply list_find_None in F. exfalso.
    apply not_true_iff_false in Hc. apply Hc, complete_true.
    intros t Ht. apply list_elem_of_In in Ht.
    rewrite Forall_forall in F. specialize (F t Ht).
    destruct t; cbn in F; congruence.
Qed.

Lemma nextEvent_None r : nextEvent r = None -> complete r = true.
Proof.
  intros H. destruct (complete r) eqn:Hc; [reflexivity|].
  destruct (nextEvent_enabled r Hc) as (e & r' & He & _). congruence.
Qed.

(** Run to completion: with enough fuel [runFrom] ends in a complete
    state, and it only takes steps of the pool. *)
Lemma runFrom_completes fuel r :
  remainingWork files r <= fuel ->
  complete (runFrom files plugins engine fuel r) = true
  /\ exists events, run events r = Some (runFrom files plugins engine fuel r).
Proof.
  revert r. induction fuel as [|fuel IH]; intros r Hf.
  - cbn. split; [|now exists []].
    destruct (complete r) eqn:Hc; [reflexivity|].
    destruct (nextEvent_enabled r Hc) as (e & r' & _ & Hs).
    apply step_decreases in Hs. lia.
  - cbn. destruct (nextEvent r) as [e|] eqn:He.
    + destruct (complete r) eqn:Hc.
      * destruct (step e r) as [r'|] eqn:Hs.
        -- pose proof (step_decreases _ _ _ Hs) as Hd.
           destruct (IH r' ltac:(lia)) as [C [events Hr]].
           split; [assumption|]. exists (e :: events). cbn. now rewrite Hs.
        -- split; [assumption | now exists []].
      * destruct (nextEvent_enabled r Hc) as (e' & r' & He' & Hs).
        rewrite He in He'. injection He' as <-. rewrite Hs.
        pose proof (step_decreases _ _ _ Hs) as Hd.
        destruct (IH r' ltac:(lia)) as [C [events Hr]].
        split; [assumption|]. exists (e :: events). cbn. now rewrite Hs.
    + split; [now apply nextEvent_None | now exists []].
Qed.

(** Every run of the pool can be completed. *)
Lemma run_can_complete r :
  reach r -> exists r', reach r' /\ complete r' = true
                        /\ exists events, run events r = Some r'.
Proof.
  intros [ev Hr].
  destruct (runFrom_completes (remainingWork files r) r (le_n _))
    as [C [events He]].
  eexists. split; [|split; [exact C | eauto]].
  exists (ev ++ events). now rewrite (run_app _ _ _ _ Hr).
Qed.

Lemma start_reachable : reach start.
Proof. now exists []. Qed.

(** ** Consequences of the invariant *)

Lemma pendingPaths_length tasks : length (pendingPaths tasks) <= length tasks.
Proof.
  induction tasks as [|t tasks IH]; [cbn; lia|].
  change (pendingPaths (t :: tasks)) with (pendingPath t ++ pendingPaths tasks).
  rewrite length_app. destruct t; cbn [pendingPath length]; lia.
Qed.

Lemma pendingPaths_complete r : complete r = true -> pendingPaths (pool r) = [].
Proof.
  rewrite complete_true. induction (pool r) as [|t tasks IH]; intros H.
  - reflexivity.
  - change (pendingPaths (t :: tasks)) with (pendingPath t ++ pendingPaths tasks).
    rewrite (H t (or_introl eq_refl)). cbn [pendingPath app].
    apply IH. intros t' Ht'. apply H. now right.
Qed.

Lemma complete_cursor r :
  reach r -> 1 <= poolSize -> complete r = true -> fileIndex r = N.
Proof.
  intros Hr HP Hc. pose proof (reachable_pool_length r Hr) as Hl.
  destruct (Inv_reachable r Hr) as (_ & _ & _ & _ & _ & Hf).
  apply Hf. destruct (pool r) as [|t tasks] eqn:E; [cbn in Hl; lia|].
  rewrite complete_true, E in Hc. left. apply Hc. now left.
Qed.

(** At completion the results are what the workers recorded for the
    planned paths, taken in completion order. *)
Lemma completed_results r :
  reach r -> 1 <= poolSize -> complete r = true ->
  exists finished,
    finished ≡ₚ files
    /\ compressionResults r = flat_map (recorded plugins engine) finished
    /\ processedCount r = N
    /\ currentlyProcessing r = [].
Proof.
  intros Hr HP Hc. pose proof (complete_cursor r Hr HP Hc) as Hk.
  destruct (Inv_reachable r Hr)
    as (_ & _ & _ & (fin & Hd1 & Hd2 & Hd3) & He & _).
  rewrite (pendingPaths_complete r Hc) in *.
  rewrite app_nil_r, Hk, firstn_all in Hd2.
  exists fin. repeat split; try assumption.
  - rewrite Hd3. now apply Permutation_length.
  - now apply submseteq_nil_r.
Qed.

Lemma unique_claimant (l : list (nat * nat)) w w' i :
  NoDup (map snd l) -> In (w, i) l -> In (w', i) l -> w = w'.
Proof.
  induction l as [|[v j] l IH]; cbn; intros Hn H1 H2; [destruct H1|].
  apply NoDup_cons in Hn as [Hj Hn]. rewrite list_elem_of_In in Hj.
  destruct H1 as [H1|H1], H2 as [H2|H2].
  - congruence.
  - injection H1 as -> ->. exfalso. apply Hj.
    apply in_map_iff. now exists (w', i).
  - injection H2 as -> ->. exfalso. apply Hj.
    apply in_map_iff. now exists (w, i).
  - now apply IH.
Qed.

Lemma step_cursor e r r' :
  step e r = Some r' ->
  (fileIndex r' = fileIndex r /\ claimed r' = claimed r)
  \/ (fileIndex r' = S (fileIndex r) /\ fileIndex r < N
      /\ exists w, claimed r' = claimed r ++ [(w, fileIndex r)]).
Proof.
  intros Hs. destruct e as [w|w]; cbn in Hs;
    destruct (pool r !! w) as [[i p| |]|] eqn:Hw; try discriminate.
  - injection Hs as <-. now left.
  - destruct (le_lt_dec N (fileIndex r)) as [Hge|Hlt].
    + rewrite loopHead_exit in Hs by assumption. injection Hs as <-. now left.
    + rewrite loopHead_claim in Hs by assumption. injection Hs as <-.
      right. simpl_run. eauto.
Qed.

(** ** The claims about the worker pool *)

(** C3.  In every state a run can reach, [currentlyProcessing] holds at
    most [min poolSize N] paths. *)
Theorem inFlight_bounded r :
  reachable files plugins poolSize engine r ->
  length (currentlyProcessing r) <= min poolSize (length files).
Proof.
  intros Hr. pose proof (reachable_pool_length r Hr) as Hl.
  destruct (Inv_reachable r Hr) as (Ha & _ & _ & (fin & _ & Hd & _) & He & _).
  apply submseteq_length in He.
  pose proof (pendingPaths_length (pool r)) as Hp.
  apply Permutation_length in Hd.
  rewrite length_app, length_take in Hd. lia.
Qed.

(** C5, amended.  The [for] loop always creates exactly [poolSize]
    workers.  The first [min poolSize N] of them claim the indices
    [0 .. min poolSize N - 1] while they are created; the remaining
    [poolSize - min poolSize N] workers are created as well and return at
    once without a claim. *)
Theorem pool_spawns_poolSize_workers :
  length (pool (startPool files poolSize)) = poolSize
  /\ pool (startPool files poolSize)
     = map (fun i => AwaitCompress i (nth i files EmptyString))
           (seq 0 (min poolSize (length files)))
       ++ replicate (poolSize - min poolSize (length files)) Returned
  /\ claimed (startPool files poolSize)
     = map (fun i => (i, i)) (seq 0 (min poolSize (length files)))
  /\ fileIndex (startPool files poolSize) = min poolSize (length files).
Proof.
  split; [apply spawns_pool_length|]. rewrite start_closed.
  repeat split.
Qed.

(** C6, amended.  Every event resumes one worker and leaves the others
    where they are, and the resumed worker moves in one of three ways.
    From the engine call it goes to the delay, and the same step has done
    all the bookkeeping of the item (result appended, path removed from
    [currentlyProcessing], [processedCount] incremented): between the
    claim and the end of the bookkeeping the worker is suspended on the
    engine call only.  From the delay, which is a second suspension
    point of each iteration, it either claims the next index and
    suspends on the engine call, or returns. *)
Theorem worker_suspension_points e r r' :
  resume files plugins engine e r = Some r' ->
  exists w,
    (forall w', w' <> w -> pool r' !! w' = pool r !! w')
    /\ ((exists i p,
           e = CompressSettled w
           /\ pool r !! w = Some (AwaitCompress i p)
           /\ pool r' !! w = Some AwaitDelay
           /\ compressionResults r'
              = compressionResults r ++ recorded plugins engine p
           /\ currentlyProcessing r'
              = List.filter (fun q => negb (String.eqb q p))
                            (currentlyProcessing r)
           /\ processedCount r' = S (processedCount r)
           /\ fileIndex r' = fileIndex r)
        \/ (e = DelayElapsed w
            /\ pool r !! w = Some AwaitDelay
            /\ fileIndex r < length files
            /\ pool r' !! w
               = Some (AwaitCompress (fileIndex r)
                         (nth (fileIndex r) files EmptyString))
            /\ fileIndex r' = S (fileIndex r)
            /\ currentlyProcessing r'
               = currentlyProcessing r ++ [nth (fileIndex r) files EmptyString]
            /\ compressionResults r' = compressionResults r
            /\ processedCount r' = processedCount r)
        \/ (e = DelayElapsed w
            /\ pool r !! w = Some AwaitDelay
            /\ length files <= fileIndex r
            /\ pool r' !! w = Some Returned
            /\ r' = setPool r (pool r'))).
Proof.
  intros Hs. destruct e as [w|w]; cbn in Hs;
    destruct (pool r !! w) as [[i p| |]|] eqn:Hw; try discriminate;
    pose proof (lookup_lt_Some _ _ _ Hw) as Hlt; exists w.
  - injection Hs as <-. rewrite afterCompress_results.
    unfold afterCompress; simpl_run. split.
    + intros w' Hne. now apply list_lookup_insert_ne.
    + left. exists i, p. rewrite list_lookup_insert_eq by assumption.
      repeat split; assumption.
  - destruct (le_lt_dec N (fileIndex r)) as [Hge|Hlt'].
    + rewrite loopHead_exit in Hs by assumption. injection Hs as <-.
      simpl_run. split.
      * intros w' Hne. now apply list_lookup_insert_ne.
      * right. right. rewrite list_lookup_insert_eq by assumption.
        repeat split; assumption.
    + rewrite loopHead_claim in Hs by assumption. injection Hs as <-.
      simpl_run. split.
      * intros w' Hne. now apply list_lookup_insert_ne.
      * right. left. rewrite list_lookup_insert_eq by assumption.
        repeat split; assumption.
Qed.

Lemma weight_claimed a m :
  list_sum (map taskWeight
              (map (fun i => AwaitCompress i (nth i files EmptyString))
                   (seq a m))) = 2 * m.
Proof.
  revert a. induction m as [|m IH]; intros a; [reflexivity|].
  cbn [seq map list_sum foldr taskWeight]. simpl. rewrite IH. lia.
Qed.

Lemma weight_returned k : list_sum (map taskWeight (replicate k Returned)) = 0.
Proof. induction k as [|k IH]; [reflexivity|]. simpl. exact IH. Qed.

Lemma remainingWork_start : remainingWork files start = 3 * N - min poolSize N.
Proof.
  rewrite start_closed. unfold remainingWork, spawned. simpl_run.
  rewrite map_app, list_sum_app, weight_claimed, weight_returned. lia.
Qed.

(** Every interleaving is finite, and a run that is not complete can
    always go on: the run completes whatever the schedule. *)
Lemma run_completes :
  (forall events r, run events start = Some r -> length events <= 3 * N)
  /\ (forall r, reach r -> complete r = false -> exists e r', step e r = Some r')
  /\ (exists r, reach r /\ complete r = true).
Proof.
  split; [|split].
  - intros events r Hr. apply run_bounded in Hr.
    rewrite remainingWork_start in Hr. lia.
  - intros r _ Hc. destruct (nextEvent_enabled r Hc) as (e & r' & _ & Hs).
    eauto.
  - destruct (run_can_complete start start_reachable) as (r & Hr & Hc & _).
    eauto.
Qed.

(** ** What becomes of a claimed index *)

Local Abbreviation Dis := (dispatchInvariant files plugins engine).

Lemma flat_map_insert {A} (f : Task -> list A) (tasks : list Task) w t0 t :
  tasks !! w = Some t0 ->
  exists rest,
    flat_map f tasks ≡ₚ f t0 ++ rest
    /\ flat_map f (<[w := t]> tasks) ≡ₚ f t ++ rest.
Proof.
  intros H. destruct (tasks_split _ _ _ H) as [E1 E2].
  exists (flat_map f (take w tasks) ++ flat_map f (drop (S w) tasks)).
  split.
  - rewrite E1 at 1. rewrite flat_map_app. cbn [flat_map].
    rewrite !app_assoc. apply Permutation_app_tail, Permutation_app_comm.
  - rewrite E2, flat_map_app. cbn [flat_map].
    rewrite !app_assoc. apply Permutation_app_tail, Permutation_app_comm.
Qed.

Lemma planned_path i : i < N -> files !! i = Some (nth i files EmptyString).
Proof.
  intros H. destruct (lookup_lt_is_Some_2 files i H) as [x Hx].
  now rewrite (nth_lookup_Some _ _ EmptyString _ Hx).
Qed.

Lemma Dis_initial : Dis initialRun.
Proof.
  split.
  - intros w i p H. discriminate.
  - exists []. repeat split. reflexivity.
Qed.

Lemma Dis_claim r w tasks :
  Dis r -> fileIndex r < N ->
  (forall w' i p, tasks !! w' = Some (AwaitCompress i p) ->
     (w' = w /\ i = fileIndex r /\ p = nth (fileIndex r) files EmptyString)
     \/ pool r !! w' = Some (AwaitCompress i p)) ->
  heldIndices tasks ≡ₚ fileIndex r :: heldIndices (pool r) ->
  Dis {| fileIndex := S (fileIndex r);
         currentlyProcessing :=
           currentlyProcessing r ++ [nth (fileIndex r) files EmptyString];
         compressionResults := compressionResults r;
         processedCount := processedCount r;
         pool := tasks;
         claimed := claimed r ++ [(w, fileIndex r)] |}.
Proof.
  intros (Hh & fin & H1 & H2 & H3) Hlt Ht Hp.
  unfold dispatchInvariant; simpl_run. split.
  - intros w' i p H. destruct (Ht w' i p H) as [(-> & -> & ->)|H'].
    + split; [now apply planned_path|]. apply in_app_iff. right. now left.
    + destruct (Hh w' i p H') as [Hf Hc]. split; [exact Hf|].
      apply in_app_iff. now left.
  - exists fin. repeat split; try assumption.
    rewrite map_app, H1, Hp. cbn [map snd].
    rewrite <- app_assoc. apply Permutation_app_head.
    symmetry. apply Permutation_cons_append.
Qed.

Lemma Dis_exit r tasks :
  Dis r ->
  (forall w i p, tasks !! w = Some (AwaitCompress i p) ->
                 pool r !! w = Some (AwaitCompress i p)) ->
  heldIndices tasks ≡ₚ heldIndices (pool r) ->
  Dis (setPool r tasks).
Proof.
  intros (Hh & fin & H1 & H2 & H3) Ht Hp.
  unfold dispatchInvariant, setPool; simpl_run. split.
  - intros w i p H. apply Hh. now apply Ht.
  - exists fin. repeat split; try assumption. now rewrite Hp.
Qed.

Lemma Dis_compress r w i p :
  Dis r -> pool r !! w = Some (AwaitCompress i p) ->
  Dis (afterCompress plugins engine w p r).
Proof.
  intros (Hh & fin & H1 & H2 & H3) Hw.
  destruct (flat_map_insert heldIndex _ _ _ AwaitDelay Hw) as (rest & P1 & P2).
  cbn [heldIndex app] in P1, P2. fold (heldIndices (pool r)) in P1.
  destruct (Hh w i p Hw) as [Hf _].
  unfold dispatchInvariant. rewrite afterCompress_results.
  unfold afterCompress; simpl_run. split.
  - intros w' i' p' H. apply list_lookup_insert_Some in H as [(_ & H & _)|[_ H]].
    + discriminate.
    + now apply Hh.
  - exists (fin ++ [i]). repeat split.
    + fold (heldIndices (<[w:=AwaitDelay]> (pool r))) in P2.
      rewrite P2, H1, P1, <- app_assoc. reflexivity.
    + rewrite flat_map_app, H2. cbn [flat_map].
      now rewrite app_nil_r, (nth_lookup_Some _ _ EmptyString _ Hf).
    + rewrite length_app, H3. cbn. lia.
Qed.

Lemma Dis_spawn r : Dis r -> Dis (spawnWorker files r).
Proof.
  intros H. unfold spawnWorker.
  destruct (le_lt_dec N (fileIndex r)) as [Hge|Hlt].
  - rewrite loopHead_exit by assumption. apply Dis_exit; [assumption| |].
    + intros w i p Hw. apply lookup_snoc_Some in Hw as [[_ Hw]|[_ Hw]];
        [assumption | discriminate].
    + unfold heldIndices. rewrite flat_map_app. cbn. now rewrite app_nil_r.
  - rewrite loopHead_claim by assumption. simpl_run.
    apply (Dis_claim r (length (pool r))); try assumption.
    + intros w i p Hw. apply lookup_snoc_Some in Hw as [[_ Hw]|[-> Hw]].
      * now right.
      * left. now injection Hw as <- <-.
    + unfold heldIndices. rewrite flat_map_app. cbn.
      symmetry. apply Permutation_cons_append.
Qed.

Lemma Dis_step e r r' : Dis r -> step e r = Some r' -> Dis r'.
Proof.
  intros H Hs. destruct e as [w|w]; cbn in Hs.
  - destruct (pool r !! w) as [[i p| |]|] eqn:Hw; try discriminate.
    injection Hs as <-. eapply Dis_compress; eassumption.
  - destruct (pool r !! w) as [[i p| |]|] eqn:Hw; try discriminate.
    destruct (le_lt_dec N (fileIndex r)) as [Hge|Hlt'].
    + rewrite loopHead_exit in Hs by assumption. injection Hs as <-.
      destruct (flat_map_insert heldIndex _ _ _ Returned Hw) as (rest & P1 & P2).
      apply Dis_exit; [assumption| |].
      * intros w' i p Hw'.
        apply list_lookup_insert_Some in Hw' as [(_ & Hw' & _)|[_ Hw']];
          [discriminate | assumption].
      * unfold heldIndices. now rewrite P1, P2.
    + rewrite loopHead_claim in Hs by assumption. injection Hs as <-.
      simpl_run.
      destruct (flat_map_insert heldIndex _ _ _
                  (AwaitCompress (fileIndex r)
                     (nth (fileIndex r) files EmptyString)) Hw)
        as (rest & P1 & P2).
      apply (Dis_claim r w); try assumption.
      * intros w' i p Hw'.
        apply list_lookup_insert_Some in Hw' as [(<- & Hw' & _)|[_ Hw']].
        -- left. now injection Hw' as <- <-.
        -- now right.
      * unfold heldIndices. rewrite P2, P1. reflexivity.
Qed.

Lemma Dis_spawns k : Dis (Nat.iter k (spawnWorker files) initialRun).
Proof. induction k as [|k IH]; cbn; [apply Dis_initial | now apply Dis_spawn]. Qed.

Lemma Dis_reachable r : reach r -> Dis r.
Proof.
  intros [events H]. revert H. generalize (Dis_spawns poolSize).
  fold start. generalize start.
  induction events as [|e events IH]; cbn [exec]; intros r0 D0 H.
  - now injection H as <-.
  - destruct (step e r0) as [r1|] eqn:E; [|discriminate].
    apply (IH r1); [eapply Dis_step; eassumption | assumption].
Qed.

Lemma heldIndices_complete r : complete r = true -> heldIndices (pool r) = [].
Proof.
  rewrite complete_true. unfold heldIndices.
  induction (pool r) as [|t tasks IH]; intros H; [reflexivity|].
  cbn [flat_map]. rewrite (H t (or_introl eq_refl)). cbn [heldIndex app].
  apply IH. intros t' Ht'. apply H. now right.
Qed.

(** A step that advances the cursor is a claim by the resumed worker:
    it now holds the old value of the cursor and the path planned
    there, and that path has joined [currentlyProcessing]. *)
Lemma step_claim e r r' :
  step e r = Some r' ->
  (fileIndex r' = fileIndex r /\ claimed r' = claimed r)
  \/ (fileIndex r' = S (fileIndex r) /\ fileIndex r < N
      /\ exists w p,
           claimed r' = claimed r ++ [(w, fileIndex r)]
           /\ files !! fileIndex r = Some p
           /\ pool r' !! w = Some (AwaitCompress (fileIndex r) p)
           /\ currentlyProcessing r' = currentlyProcessing r ++ [p]).
Proof.
  intros Hs. destruct e as [w|w]; cbn in Hs;
    destruct (pool r !! w) as [[i p| |]|] eqn:Hw; try discriminate.
  - injection Hs as <-. now left.
  - destruct (le_lt_dec N (fileIndex r)) as [Hge|Hlt].
    + rewrite loopHead_exit in Hs by assumption. injection Hs as <-. now left.
    + rewrite loopHead_claim in Hs by assumption. injection Hs as <-.
      right. simpl_run. split; [reflexivity|]. split; [assumption|].
      exists w, (nth (fileIndex r) files EmptyString).
      split; [reflexivity|]. split; [now apply planned_path|].
      split; [|reflexivity].
      apply list_lookup_insert_eq. now apply lookup_lt_Some in Hw.
Qed.

(** C2.  In every state a run can reach, under every interleaving of the
    workers, the indices claimed so far are exactly [0 .. fileIndex - 1],
    each claimed once, in increasing order, by an existing worker; the
    cursor never exceeds the plan length, and a step leaves it unchanged
    or advances it by exactly one, in which case the resumed worker has
    claimed the old value: it holds that index and the path planned
    there.  A worker suspended on the engine call holds an index it
    claimed itself and the path planned at it, and every claimed index
    is either held in this way or finished, its outcome recorded.  From
    every reachable state every continuation is finite, a state that is
    not complete can always take a step, and a complete state can be
    reached; in a complete state (with at least one worker) every index
    below [N] has been claimed by exactly one worker and is finished. *)
Theorem claims_exactly_once r :
  reachable files plugins poolSize engine r ->
  fileIndex r <= length files
  /\ map snd (claimed r) = seq 0 (fileIndex r)
  /\ NoDup (map snd (claimed r))
  /\ Forall (fun c => fst c < poolSize) (claimed r)
  /\ (forall w w' i, In (w, i) (claimed r) -> In (w', i) (claimed r) -> w = w')
  /\ (forall e r', resume files plugins engine e r = Some r' ->
        (fileIndex r' = fileIndex r /\ claimed r' = claimed r)
        \/ (fileIndex r' = S (fileIndex r) /\ fileIndex r < length files
            /\ exists w p,
                 claimed r' = claimed r ++ [(w, fileIndex r)]
                 /\ files !! fileIndex r = Some p
                 /\ pool r' !! w = Some (AwaitCompress (fileIndex r) p)
                 /\ currentlyProcessing r' = currentlyProcessing r ++ [p]))
  /\ (forall w i p, pool r !! w = Some (AwaitCompress i p) ->
        files !! i = Some p /\ In (w, i) (claimed r))
  /\ (exists finished,
        map snd (claimed r) ≡ₚ finished ++ heldIndices (pool r)
        /\ compressionResults r
           = flat_map (fun i => recorded plugins engine
                                         (nth i files EmptyString))
                      finished
        /\ processedCount r = length finished)
  /\ (forall events r',
        exec files plugins engine events r = Some r' ->
        length events <= remainingWork files r)
  /\ (complete r = false ->
      exists e r', resume files plugins engine e r = Some r')
  /\ (exists events r',
        exec files plugins engine events r = Some r'
        /\ reachable files plugins poolSize engine r'
        /\ complete r' = true)
  /\ (1 <= poolSize -> complete r = true ->
        fileIndex r = length files
        /\ (forall i, i < length files -> exists w, In (w, i) (claimed r))
        /\ exists finished,
             finished ≡ₚ seq 0 (length files)
             /\ compressionResults r
                = flat_map (fun i => recorded plugins engine
                                              (nth i files EmptyString))
                           finished).
Proof.
  intros Hr. destruct (Inv_reachable r Hr) as (Ha & Hb & Hc & _).
  destruct (Dis_reachable r Hr) as (Hh & fin & Hd1 & Hd2 & Hd3).
  assert (Hn : NoDup (map snd (claimed r))) by (rewrite Hb; apply NoDup_seq).
  split; [assumption|]. split; [assumption|]. split; [assumption|].
  split; [now rewrite <- (reachable_pool_length r Hr)|].
  split; [intros w w' i; now apply unique_claimant|].
  split; [intros e r'; apply step_claim|].
  split; [exact Hh|].
  split; [exists fin; auto|].
  split.
  { intros events r' H. apply run_bounded in H. lia. }
  split.
  { intros Hc'. destruct (nextEvent_enabled r Hc') as (e & r' & _ & Hs). eauto. }
  split.
  { destruct (run_can_complete r Hr) as (r' & Hr' & Hc' & events & He). eauto. }
  intros HP Hdone. pose proof (complete_cursor r Hr HP Hdone) as Hk.
  split; [assumption|]. split.
  - intros i Hi. rewrite <- Hk in Hi.
    assert (Hin : In i (map snd (claimed r)))
      by (rewrite Hb; apply in_seq; lia).
    apply in_map_iff in Hin as ([w j] & Hj & Hin). cbn in Hj. subst j.
    now exists w.
  - exists fin. split; [|assumption].
    rewrite (heldIndices_complete r Hdone), app_nil_r, Hb, Hk in Hd1.
    now symmetry.
Qed.

(** C1, amended.  For a plan of distinct paths and a pool of at least
    one worker, if every fulfilled engine call returns exactly one result
    and that result carries the path it was asked to compress, then the
    run completes under every schedule, and at completion the results are
    as many as the planned paths and their paths are the planned paths,
    each once. *)
Theorem run_results_cover_plan :
  NoDup files -> 1 <= poolSize ->
  (forall p rs, In p files -> engine [p] plugins = Fulfilled rs ->
                exists x, rs = [x] /\ path x = p) ->
  ((forall events r,
       exec files plugins engine events (startPool files poolSize) = Some r ->
       length events <= 3 * length files)
   /\ (forall r, reachable files plugins poolSize engine r ->
                 complete r = false ->
                 exists e r', resume files plugins engine e r = Some r')
   /\ (exists r, reachable files plugins poolSize engine r
                 /\ complete r = true))
  /\ forall r, reachable files plugins poolSize engine r ->
       complete r = true ->
       length (compressionResults r) = length files
       /\ map path (compressionResults r) ≡ₚ files
       /\ NoDup (map path (compressionResults r)).
Proof.
  intros Hnd HP Hengine. split; [apply run_completes|].
  intros r Hr Hc.
  destruct (completed_results r Hr HP Hc) as (fin & Hfin & Hres & _ & _).
  assert (Hpaths : map path (compressionResults r) = fin).
  { rewrite Hres.
    assert (Hsub : forall p, In p fin -> In p files)
      by (intros p Hp; rewrite <- list_elem_of_In in *; now rewrite <- Hfin).
    clear Hfin Hres. induction fin as [|p fin IH]; [reflexivity|].
    cbn [flat_map]. rewrite map_app, IH by (intros q Hq; apply Hsub; now right).
    unfold recorded. destruct (engine [p] plugins) as [rs|err] eqn:E.
    - destruct (Hengine p rs (Hsub p (or_introl eq_refl)) E) as (x & -> & Hx).
      cbn. now rewrite Hx.
    - reflexivity. }
  split; [|split].
  - rewrite <- (length_map path), Hpaths. now apply Permutation_length.
  - now rewrite Hpaths.
  - rewrite Hpaths. now rewrite Hfin.
Qed.

(** C4, amended.  Whatever subset of the engine calls is rejected (all of
    them included), provided every fulfilled call returns exactly one
    result: the run completes under every schedule with [N] results,
    every index [0 .. N-1] has been claimed, and each rejected path is
    recorded with [success = false] and with the [message] of the
    rejection as its [error], or [Unknown error] when the rejection is
    not an [Error] object; that text is non-empty unless the rejection is
    an [Error] whose message is empty. *)
Theorem failures_are_isolated :
  1 <= poolSize ->
  (forall p rs, In p files -> engine [p] plugins = Fulfilled rs ->
                length rs = 1) ->
  ((forall events r,
       exec files plugins engine events (startPool files poolSize) = Some r ->
       length events <= 3 * length files)
   /\ (forall r, reachable files plugins poolSize engine r ->
                 complete r = false ->
                 exists e r', resume files plugins engine e r = Some r')
   /\ (exists r, reachable files plugins poolSize engine r
                 /\ complete r = true))
  /\ forall r, reachable files plugins poolSize engine r ->
       complete r = true ->
       length (compressionResults r) = length files
       /\ map snd (claimed r) = seq 0 (length files)
       /\ forall p err, In p files -> engine [p] plugins = Rejected err ->
            In (failureResult p err) (compressionResults r)
            /\ success (failureResult p err) = false
            /\ error (failureResult p err) = Some (errorText err)
            /\ (err <> ErrorObject EmptyString -> errorText err <> EmptyString).
Proof.
  intros HP Hengine. split; [apply run_completes|].
  intros r Hr Hc.
  destruct (completed_results r Hr HP Hc) as (fin & Hfin & Hres & _ & _).
  assert (Hsub : forall p, In p fin <-> In p files)
    by (intros p; rewrite <- !list_elem_of_In; now rewrite Hfin).
  split; [|split].
  - rewrite <- (Permutation_length Hfin), Hres.
    assert (Hsub' : forall p, In p fin -> In p files) by (intros; now apply Hsub).
    clear Hfin Hres Hsub. induction fin as [|p fin IH]; [reflexivity|].
    cbn [flat_map]. rewrite length_app, IH by (intros q Hq; apply Hsub'; now right).
    unfold recorded. destruct (engine [p] plugins) as [rs|err] eqn:E.
    + rewrite (Hengine p rs (Hsub' p (or_introl eq_refl)) E). reflexivity.
    + reflexivity.
  - destruct (Inv_reachable r Hr) as (_ & Hb & _).
    now rewrite Hb, (complete_cursor r Hr HP Hc).
  - intros p err Hp E. split; [|split; [reflexivity|split; [reflexivity|]]].
    + rewrite Hres. apply in_flat_map. exists p. split; [now apply Hsub|].
      unfold recorded. rewrite E. now left.
    + intros Hne. destruct err as [m|]; cbn; [congruence | discriminate].
Qed.

End Pool.

(** ** Concrete runs *)

Lemma claims_exactly_once_witness :
  let r := runFrom ["a"; "b"; "c"] [] mockCompressFilesInPlace 2
                   (startPool ["a"; "b"; "c"] 2) in
  reachable ["a"; "b"; "c"] [] 2 mockCompressFilesInPlace r
  /\ pool r = [AwaitCompress 2 "c"; AwaitCompress 1 "b"]
  /\ map snd (claimed r) = [0; 1; 2]
  /\ (forall w w' i, In (w, i) (claimed r) -> In (w', i) (claimed r) -> w = w')
  /\ In (0, 2) (claimed r)
  /\ exists events r',
       exec ["a"; "b"; "c"] [] mockCompressFilesInPlace events r = Some r'
       /\ complete r' = true.
Proof.
  intros r.
  assert (Hr : reachable ["a"; "b"; "c"] [] 2 mockCompressFilesInPlace r).
  { exists [CompressSettled 0; DelayElapsed 0]. vm_compute. reflexivity. }
  destruct (claims_exactly_once ["a"; "b"; "c"] [] 2 mockCompressFilesInPlace
              r Hr)
    as (_ & Hb & _ & _ & Hu & _ & Hh & _ & _ & _ & (events & r' & He & _ & Hc) & _).
  split; [exact Hr|]. split; [reflexivity|]. split; [exact Hb|].
  split; [exact Hu|]. split.
  - apply (Hh 0 2 "c"). reflexivity.
  - exists events, r'. split; [exact He | exact Hc].
Defined.

Lemma inFlight_bounded_witness :
  let r := startPool ["a"; "b"; "c"] 5 in
  currentlyProcessing r = ["a"; "b"; "c"]
  /\ length (currentlyProcessing r) <= min 5 3.
Proof.
  intros r. split; [reflexivity|].
  apply (inFlight_bounded ["a"; "b"; "c"] [] 5 mockCompressFilesInPlace r).
  exists []. reflexivity.
Defined.

(** C5, as stated, fails: with five workers and three paths the loop
    still creates five worker tasks, two of which have nothing to claim. *)
Lemma pool_spawns_idle_workers :
  let r := startPool ["a"; "b"; "c"] 5 in
  length (pool r) = 5
  /\ length (pool r) <> min 5 (length ["a"; "b"; "c"])
  /\ pool r !! 3 = Some Returned
  /\ pool r !! 4 = Some Returned
  /\ claimed r = [(0, 0); (1, 1); (2, 2)].
Proof. cbn. repeat split. discriminate. Qed.

(** C6, as stated, fails: after the bookkeeping of an item the worker is
    suspended again, on the delay and not on the engine call. *)
Lemma worker_suspends_on_delay :
  exists r,
    reachable ["a"; "b"] [] 1 mockCompressFilesInPlace r
    /\ pool r = [AwaitDelay]
    /\ isSuspended AwaitDelay = true
    /\ isAwaitCompress AwaitDelay = false
    /\ processedCount r = 1
    /\ fileIndex r = 1.
Proof.
  eexists. split; [exists [CompressSettled 0]; reflexivity|].
  repeat split.
Qed.

Lemma worker_suspension_points_witness :
  exists r',
    resume ["a"; "b"] [] mockCompressFilesInPlace (CompressSettled 0)
           (startPool ["a"; "b"] 1) = Some r'
    /\ exists w,
         (forall w', w' <> w -> pool r' !! w' = pool (startPool ["a"; "b"] 1) !! w')
         /\ pool r' !! w = Some AwaitDelay.
Proof.
  eexists. split; [reflexivity|].
  destruct (worker_suspension_points ["a"; "b"] [] mockCompressFilesInPlace
              (CompressSettled 0) (startPool ["a"; "b"] 1) _ eq_refl)
    as (w & Hothers & [(i & p & He & _ & Hw & _) | [(He & _) | (He & _)]]);
    try discriminate.
  exists w. split; [exact Hothers | exact Hw].
Defined.

(** C1, as stated, fails: what ends up in the results is what the engine
    replied.  An engine that replies with an empty list leaves no result
    for a processed path, and one that replies under another path leaves
    a result whose path was never planned. *)
Lemma results_follow_engine_reply :
  (let engine := fun _ _ : list string => Fulfilled [] in
   NoDup ["a"]
   /\ exists r, reachable ["a"] [] 1 engine r
               /\ complete r = true
               /\ length (compressionResults r) = 0)
  /\ (let engine := fun _ _ : list string =>
                      mockCompressFilesInPlace ["b"] [] in
      exists r, reachable ["a"] [] 1 engine r
                /\ complete r = true
                /\ map path (compressionResults r) = ["b"]).
Proof.
  split.
  - split; [apply NoDup_singleton|].
    eexists. split; [exists [CompressSettled 0; DelayElapsed 0]; reflexivity|].
    split; reflexivity.
  - eexists. split; [exists [CompressSettled 0; DelayElapsed 0]; reflexivity|].
    split; reflexivity.
Qed.

Lemma run_results_cover_plan_witness :
  exists r,
    reachable ["a"; "b"; "c"] [] 2 mockCompressFilesInPlace r
    /\ complete r = true
    /\ length (compressionResults r) = 3
    /\ map path (compressionResults r) ≡ₚ ["a"; "b"; "c"].
Proof.
  assert (Hnd : NoDup ["a"; "b"; "c"]).
  { apply NoDup_ListNoDup. repeat constructor; cbn; intuition discriminate. }
  assert (Hengine : forall p rs, In p ["a"; "b"; "c"] ->
            mockCompressFilesInPlace [p] [] = Fulfilled rs ->
            exists x, rs = [x] /\ path x = p).
  { intros p rs _ E. injection E as <-. eexists. split; reflexivity. }
  destruct (run_results_cover_plan ["a"; "b"; "c"] [] 2 mockCompressFilesInPlace
              Hnd ltac:(lia) Hengine) as [(_ & _ & r & Hr & Hc) Hall].
  exists r. destruct (Hall r Hr Hc) as (Hl & Hp & _). auto.
Defined.

(** C4, as stated, fails: a rejection with an [Error] whose message is
    empty is recorded with an empty error string. *)
Lemma failure_with_empty_message :
  let engine := fun _ _ : list string => Rejected (ErrorObject EmptyString) in
  exists r, reachable ["a"] [] 1 engine r
            /\ complete r = true
            /\ map success (compressionResults r) = [false]
            /\ map error (compressionResults r) = [Some EmptyString].
Proof.
  eexists. split; [exists [CompressSettled 0; DelayElapsed 0]; reflexivity|].
  repeat split.
Qed.

Lemma failures_are_isolated_witness :
  let engine := fun (filePaths pluginOrders : list string) =>
                  if String.eqb (List.hd EmptyString filePaths) "b"
                  then Rejected OtherValue
                  else mockCompressFilesInPlace filePaths pluginOrders in
  exists r,
    reachable ["a"; "b"; "c"; "d"] [] 2 engine r
    /\ complete r = true
    /\ length (compressionResults r) = 4
    /\ In (failureResult "b" OtherValue) (compressionResults r)
    /\ errorText OtherValue <> EmptyString.
Proof.
  intros engine.
  assert (Hengine : forall p rs, In p ["a"; "b"; "c"; "d"] ->
            engine [p] [] = Fulfilled rs -> length rs = 1).
  { intros p rs _ E. unfold engine in E. cbn in E.
    destruct (String.eqb p "b"); [discriminate|]. now injection E as <-. }
  destruct (failures_are_isolated ["a"; "b"; "c"; "d"] [] 2 engine
              ltac:(lia) Hengine) as [(_ & _ & r & Hr & Hc) Hall].
  exists r. destruct (Hall r Hr Hc) as (Hl & _ & Hf).
  destruct (Hf "b" OtherValue ltac:(cbn; auto) eq_refl) as (Hin & _ & _ & Hne).
  repeat split; try assumption. apply Hne. discriminate.
Defined.

End PoolTheory.

(** * The step from Scan to Confirm *)

Module StepTheory.
Import CompressPage.

(** C7, as stated, fails: [goToConfirm] looks at the scanned files, not at
    the selection, and moves on with nothing selected. *)
Lemma goToConfirm_ignores_selection :
  let pg := {| compressibleFiles :=
                 [{| cf_path := "/photos/a.png";
                     cf_original_size := 2048%N;
                     cf_estimated_compressed_size := 1024%N;
                     cf_estimated_savings := 1024%N;
                     cf_plugin_name := "WebP Converter" |}];
               selectedFiles := [];
               currentStep := scan;
               appError := None |} in
  length (selectedFiles pg) = 0
  /\ currentStep (goToConfirm pg) = confirm
  /\ appError (goToConfirm pg) = None.
Proof. repeat split. Qed.

(** C7, amended.  From the Scan step [goToConfirm] moves to Confirm
    exactly when at least one compressible file has been scanned;
    otherwise it stays at Scan and reports "Please scan for files
    first".  The selection is enforced by the button that calls it: the
    button is rendered only when files have been scanned and is disabled
    while nothing is selected, so a click moves to Confirm exactly when
    files have been scanned and at least one is selected, and otherwise
    changes nothing and reports nothing. *)
Theorem goToConfirm_spec pg :
  currentStep pg = scan ->
  (currentStep (goToConfirm pg) = confirm <-> compressibleFiles pg <> [])
  /\ (compressibleFiles pg = [] ->
        currentStep (goToConfirm pg) = scan
        /\ appError (goToConfirm pg) = Some "Please scan for files first")
  /\ (compressibleFiles pg <> [] -> appError (goToConfirm pg) = appError pg)
  /\ (currentStep (clickNext pg) = confirm
        <-> compressibleFiles pg <> [] /\ selectedFiles pg <> [])
  /\ (compressibleFiles pg = [] \/ selectedFiles pg = [] -> clickNext pg = pg).
Proof.
  intros Hs. unfold clickNext, nextButtonRendered, nextButtonDisabled, goToConfirm.
  rewrite Hs.
  destruct (compressibleFiles pg) as [|f fs], (selectedFiles pg) as [|x xs];
    cbn; rewrite ?Hs; repeat split; try congruence; try tauto;
    try (intros [? ?]; congruence); try (intros [?|?]; congruence).
Qed.

Lemma goToConfirm_spec_witness :
  let pg := {| compressibleFiles :=
                 [{| cf_path := "/photos/a.png";
                     cf_original_size := 2048%N;
                     cf_estimated_compressed_size := 1024%N;
                     cf_estimated_savings := 1024%N;
                     cf_plugin_name := "WebP Converter" |}];
               selectedFiles := [];
               currentStep := scan;
               appError := None |} in
  currentStep (goToConfirm pg) = confirm /\ clickNext pg = pg.
Proof.
  intros pg.
  destruct (goToConfirm_spec pg eq_refl) as (H1 & _ & _ & _ & H5).
  split; [apply H1; discriminate | apply H5; now right].
Defined.

End StepTheory.

(** * Further properties of the path utilities *)

Module PathExtras.
Import JsString PathUtils PathSelector PathSelectorOps PathTheory.

(** ** Strings *)

Lemma str_app_assoc a b c : (a +:+ b) +:+ c = a +:+ (b +:+ c).
Proof.
  induction a as [|x a IH]; [reflexivity|].
  change (String x ((a +:+ b) +:+ c) = String x (a +:+ (b +:+ c))).
  now rewrite IH.
Qed.

Lemma str_app_length a b :
  String.length (a +:+ b) = String.length a + String.length b.
Proof. induction a as [|x a IH]; simpl; [reflexivity | now rewrite IH]. Qed.

Lemma startsWith_iff s p : startsWith s p = true <-> exists x, s = p +:+ x.
Proof.
  unfold startsWith. revert s. induction p as [|a p IH]; intros s.
  - split; [intros _; now exists s | intros _; now destruct s].
  - destruct s as [|b s]; cbn [String.prefix].
    + split; [discriminate | intros [x Hx]; discriminate].
    + destruct (ascii_dec a b) as [->|Hne].
      * rewrite IH. split; intros [x Hx]; exists x.
        -- now rewrite Hx.
        -- now injection Hx.
      * split; [discriminate|]. intros [x Hx]. injection Hx as Hab _.
        congruence.
Qed.

(** ** [normalizePath] *)

(** X1.  Two ASCII paths that differ only in letter case or in the kind
    of separator have the same normal form. *)
Theorem normalizePath_case_separator_blind p q :
  isAscii p = true -> isAscii q = true ->
  toLowerCase (replaceBackslashes p) = toLowerCase (replaceBackslashes q) ->
  normalizePath p = normalizePath q.
Proof.
  intros _ _ H. rewrite !normalizePath_unfold, <- !strip_toLowerCase.
  now rewrite H.
Qed.

Lemma normalizePath_case_separator_blind_witness :
  normalizePath ("C:" +:+ String backslash "Users" +:+ String backslash "John")
  = normalizePath "c:/users/JOHN".
Proof. apply normalizePath_case_separator_blind; reflexivity. Defined.

(** X2.  The normal form of an ASCII path is an ASCII path without
    backslash and without upper-case letter: unifying the separators or
    lower-casing it again changes nothing. *)
Theorem normalizePath_normal_form p :
  isAscii p = true ->
  isAscii (normalizePath p) = true
  /\ replaceBackslashes (normalizePath p) = normalizePath p
  /\ toLowerCase (normalizePath p) = normalizePath p.
Proof.
  intros Ha. split; [now apply normalizePath_ascii|].
  rewrite !normalizePath_unfold. split.
  - now rewrite replaceBackslashes_toLowerCase, strip_replaceBackslashes.
  - apply toLowerCase_idem.
Qed.

Lemma normalizePath_normal_form_witness :
  let n := normalizePath ("C:" +:+ String backslash "Users/") in
  n = "c:/users" /\ replaceBackslashes n = n /\ toLowerCase n = n.
Proof.
  intros n. split; [reflexivity|].
  destruct (normalizePath_normal_form ("C:" +:+ String backslash "Users/")
              eq_refl) as (_ & H1 & H2).
  split; [exact H1 | exact H2].
Defined.

(** X3.  On an ASCII path normalization removes at most one character,
    and never all of a non-empty path: the normal form is empty only
    for the empty path. *)
Theorem normalizePath_length_bounds p :
  isAscii p = true ->
  String.length p - 1 <= String.length (normalizePath p)
  /\ String.length (normalizePath p) <= String.length p
  /\ (normalizePath p = EmptyString <-> p = EmptyString).
Proof.
  intros _. rewrite normalizePath_length.
  assert (Hn : String.length (replaceBackslashes p) = String.length p)
    by apply map_chars_length.
  assert (Hlen : String.length p - 1
                 <= String.length (stripTrailingSlash (replaceBackslashes p))
                 /\ String.length (stripTrailingSlash (replaceBackslashes p))
                    <= String.length p
                 /\ (String.length (stripTrailingSlash (replaceBackslashes p)) = 0
                     -> String.length p = 0)).
  { unfold stripTrailingSlash.
    destruct (1 <? String.length (replaceBackslashes p)) eqn:E; cbn [andb].
    - apply Nat.ltb_lt in E.
      destruct (endsWith (replaceBackslashes p) "/");
        rewrite ?slice_length; lia.
    - lia. }
  destruct Hlen as (H1 & H2 & H3). split; [exact H1|]. split; [exact H2|].
  split.
  - intros E. assert (L : String.length (normalizePath p) = 0) by now rewrite E.
    rewrite normalizePath_length in L. apply H3 in L.
    destruct p; [reflexivity | discriminate].
  - intros ->. reflexivity.
Qed.

Lemma normalizePath_length_bounds_witness :
  String.length (normalizePath "/home/user/") = 10
  /\ String.length "/home/user/" - 1 <= String.length (normalizePath "/home/user/").
Proof.
  split; [reflexivity|].
  destruct (normalizePath_length_bounds "/home/user/" eq_refl) as (H & _).
  exact H.
Defined.

(** ** [isSubpath] *)

Lemma isSubpath_true a b :
  isSubpath a b = true <->
  normalizePath a <> normalizePath b
  /\ exists x, normalizePath a = (normalizePath b +:+ "/") +:+ x.
Proof.
  unfold isSubpath.
  destruct (String.eqb_spec (normalizePath a) (normalizePath b)) as [E|E].
  - split; [discriminate | intros [H _]; contradiction].
  - rewrite startsWith_iff. tauto.
Qed.

Lemma isSubpath_longer a b :
  isSubpath a b = true ->
  String.length (normalizePath b) < String.length (normalizePath a).
Proof.
  intros H. apply isSubpath_true in H as [_ [x Hx]].
  rewrite Hx, !str_app_length. cbn. lia.
Qed.

(** X4.  [isSubpath] is a strict order on paths: no path is a sub-path of
    itself or of a path with the same normal form, two paths are never
    sub-paths of each other, and a sub-path of a sub-path is a
    sub-path. *)
Theorem isSubpath_strict_order :
  (forall a b, normalizePath a = normalizePath b -> isSubpath a b = false)
  /\ (forall a b, isSubpath a b = true -> isSubpath b a = false)
  /\ (forall a b c, isSubpath a b = true -> isSubpath b c = true ->
                    isSubpath a c = true).
Proof.
  split; [|split].
  - intros a b E. unfold isSubpath. rewrite E. now rewrite String.eqb_refl.
  - intros a b H. destruct (isSubpath b a) eqn:H'; [|reflexivity].
    apply isSubpath_longer in H, H'. lia.
  - intros a b c Hab Hbc.
    pose proof (isSubpath_longer _ _ Hab) as L1.
    pose proof (isSubpath_longer _ _ Hbc) as L2.
    apply isSubpath_true in Hab as [_ [x Hx]].
    apply isSubpath_true in Hbc as [_ [y Hy]].
    apply isSubpath_true. split.
    + intros E. rewrite E in L1. lia.
    + exists (y +:+ "/" +:+ x). rewrite Hx, Hy.
      now rewrite !str_app_assoc.
Qed.

(** X5.  A path whose normal form extends the normal form of [b] is a
    sub-path of [b] exactly when the extension begins with a separator:
    a sibling whose name merely extends the parent's name is not a
    sub-path. *)
Theorem isSubpath_needs_separator a b x :
  normalizePath a = normalizePath b +:+ x ->
  isSubpath a b = true <-> startsWith x "/" = true.
Proof.
  intros E. rewrite isSubpath_true, E, startsWith_iff. split.
  - intros [_ [y Hy]]. exists y. rewrite str_app_assoc in Hy.
    revert Hy. generalize (normalizePath b). intros n.
    induction n as [|c n IH]; cbn; intros Hy; [exact Hy|].
    injection Hy as Hy. auto.
  - intros [y ->]. split.
    + intros H. apply (f_equal String.length) in H.
      rewrite !str_app_length in H. cbn in H. lia.
    + exists y. now rewrite str_app_assoc.
Qed.

Lemma isSubpath_needs_separator_witness :
  isSubpath "/home/user2" "/home/user" = true <-> startsWith "2" "/" = true.
Proof. apply isSubpath_needs_separator. reflexivity. Defined.

(** ** [findParentPaths], [findChildPaths], [validatePath] *)

(** X6.  No existing path is reported both as containing the new path and
    as contained in it, and a path with the same normal form as the new
    one is reported as neither. *)
Theorem parents_children_disjoint newPath existingPaths r :
  (In r (findParentPaths newPath existingPaths) ->
   ~ In r (findChildPaths newPath existingPaths))
  /\ (normalizePath r = normalizePath newPath ->
      ~ In r (findParentPaths newPath existingPaths)
      /\ ~ In r (findChildPaths newPath existingPaths)).
Proof.
  destruct isSubpath_strict_order as (Hirr & Hasym & _).
  unfold findParentPaths, findChildPaths. rewrite !List.filter_In. split.
  - intros [_ H] [_ H']. apply Hasym in H. congruence.
  - intros E. split; intros [_ H].
    + rewrite (Hirr newPath r) in H by auto. discriminate.
    + rewrite (Hirr r newPath) in H by auto. discriminate.
Qed.

(** X7.  [validatePath] accepts a path exactly when no existing path has the
    same normal form and none contains it; a rejected path always comes
    with at least one warning, and there is no warning at all exactly
    when the path is accepted and contains no existing path. *)
Theorem validatePath_verdict path existingPaths :
  let v := validatePath path existingPaths in
  (isValid v = true <->
   forall r, In r existingPaths ->
     normalizePath r <> normalizePath path /\ isSubpath path r = false)
  /\ (isValid v = false -> warnings v <> [])
  /\ (warnings v = [] <-> isValid v = true /\ hasSubpaths v = []).
Proof.
  cbn zeta. split; [|split].
  - split; [apply isValid_inv|]. intros H. cbn.
    apply andb_true_iff. split.
    + apply negb_true_iff. apply not_true_iff_false. intros E.
      apply List.existsb_exists in E as (r & Hr & E).
      apply String.eqb_eq in E. now destruct (H r Hr).
    + apply Nat.eqb_eq. unfold findParentPaths.
      destruct (List.filter _ existingPaths) as [|r l] eqn:F; [reflexivity|].
      assert (Hr : In r (List.filter (fun e => isSubpath path e) existingPaths))
        by (rewrite F; now left).
      apply List.filter_In in Hr as [Hr E]. destruct (H r Hr). congruence.
  - cbn. destruct (some _ existingPaths); cbn.
    + intros _.
      destruct (findParentPaths path existingPaths),
               (findChildPaths path existingPaths); cbn; discriminate.
    + destruct (findParentPaths path existingPaths); cbn; [discriminate|].
      intros _. destruct (findChildPaths path existingPaths); cbn; discriminate.
  - cbn. destruct (some _ existingPaths); cbn;
      destruct (findParentPaths path existingPaths),
               (findChildPaths path existingPaths); cbn;
      split; try discriminate; try tauto; intros [? ?]; discriminate.
Qed.

(** ** The selector *)

Lemma pushInvalid_paths inv p v x :
  In x (map ip_path (pushInvalid inv p v)) <-> x = p \/ In x (map ip_path inv).
Proof.
  unfold pushInvalid, some. destruct (existsb _ inv) eqn:E.
  - split; [auto|]. intros [->|H]; [|assumption].
    apply List.existsb_exists in E as (ip & Hip & E).
    apply String.eqb_eq in E. subst p. now apply in_map.
  - rewrite map_app, in_app_iff. cbn. intuition.
Qed.

Lemma pushInvalid_NoDup inv p v :
  NoDup (map ip_path inv) -> NoDup (map ip_path (pushInvalid inv p v)).
Proof.
  intros H. unfold pushInvalid, some. destruct (existsb _ inv) eqn:E; [assumption|].
  rewrite map_app. cbn. apply NoDup_app. split; [assumption|]. split.
  - intros x Hx Hp. apply list_elem_of_In in Hx.
    apply list_elem_of_In in Hp as [<-|[]].
    apply in_map_iff in Hx as (ip & Hip & Hin).
    apply not_true_iff_false in E. apply E.
    apply List.existsb_exists. exists ip. split; [assumption|].
    now apply String.eqb_eq.
  - apply NoDup_singleton.
Qed.

Lemma foldPush_paths (f : string -> PathValidationResult) subs inv x :
  In x (map ip_path (fold_left (fun i s => pushInvalid i s (f s)) subs inv))
  <-> In x subs \/ In x (map ip_path inv).
Proof.
  revert inv. induction subs as [|s subs IH]; intros inv; cbn [fold_left].
  - cbn. tauto.
  - rewrite IH, pushInvalid_paths. cbn. intuition.
Qed.

Lemma foldPush_NoDup (f : string -> PathValidationResult) subs inv :
  NoDup (map ip_path inv) ->
  NoDup (map ip_path (fold_left (fun i s => pushInvalid i s (f s)) subs inv)).
Proof.
  revert inv. induction subs as [|s subs IH]; intros inv H; cbn [fold_left].
  - assumption.
  - apply IH. now apply pushInvalid_NoDup.
Qed.

Lemma handlePathAdded_invalid st path x :
  In x (map ip_path (invalidPaths (handlePathAdded st path)))
  <-> In x (map ip_path (invalidPaths st))
      \/ (if isValid (validatePath path (scanPaths st))
          then In x (findChildPaths path (scanPaths st))
          else x = path).
Proof.
  unfold handlePathAdded. rewrite handlePathAdded_guard.
  destruct (isValid _); cbn [invalidPaths].
  - rewrite foldPush_paths. cbn [hasSubpaths validatePath]. tauto.
  - rewrite pushInvalid_paths. tauto.
Qed.

(** X8.  An add never loses a path: the new path and every root that
    was in the list are afterwards either among the scan roots or among
    the invalid paths, and paths already listed as invalid stay
    listed. *)
Theorem handlePathAdded_keeps_track st path r :
  r = path \/ In r (scanPaths st) \/ In r (map ip_path (invalidPaths st)) ->
  In r (scanPaths (handlePathAdded st path))
  \/ In r (map ip_path (invalidPaths (handlePathAdded st path))).
Proof.
  rewrite handlePathAdded_invalid, handlePathAdded_scanPaths.
  destruct (isValid _) eqn:V.
  - rewrite in_app_iff, List.filter_In. unfold findChildPaths.
    rewrite List.filter_In. cbn [In].
    intros [->|[H|H]]; [tauto| |tauto].
    destruct (isSubpath r path); cbn; tauto.
  - tauto.
Qed.

Lemma handlePathAdded_keeps_track_witness :
  let st := addAll emptySelector ["/a/b"; "/a/c"] in
  In "/a/b" (map ip_path (invalidPaths (handlePathAdded st "/a")))
  /\ scanPaths (handlePathAdded st "/a") = ["/a"].
Proof.
  intros st. split; [|reflexivity].
  destruct (handlePathAdded_keeps_track st "/a" "/a/b") as [H|H].
  - right. left. cbn. now left.
  - cbn in H. destruct H as [H|[]]. discriminate.
  - exact H.
Defined.

(** X9.  The list of invalid paths never shows a path twice, whatever is
    added. *)
Theorem handlePathAdded_invalid_NoDup st path :
  NoDup (map ip_path (invalidPaths st)) ->
  NoDup (map ip_path (invalidPaths (handlePathAdded st path))).
Proof.
  intros H. unfold handlePathAdded.
  destruct (isValid _ || _); cbn [invalidPaths].
  - now apply foldPush_NoDup.
  - now apply pushInvalid_NoDup.
Qed.

Lemma handlePathAdded_invalid_NoDup_witness :
  let st := addAll emptySelector ["/a"; "/A/"] in
  map ip_path (invalidPaths st) = ["/A/"]
  /\ NoDup (map ip_path (invalidPaths (handlePathAdded st "/A/"))).
Proof.
  intros st. split; [reflexivity|].
  apply handlePathAdded_invalid_NoDup. cbn. apply NoDup_singleton.
Defined.

Lemma removeScanPath_absent paths path :
  ~ In path paths -> removeScanPath paths path = paths.
Proof.
  unfold removeScanPath. induction paths as [|x l IH]; cbn; [reflexivity|].
  intros H. destruct (String.eqb_spec x path) as [->|Hne]; cbn.
  - exfalso. apply H. now left.
  - f_equal. apply IH. intros Hin. apply H. now right.
Qed.

(** X10.  Removing a path that has just been accepted gives back the
    previous roots, without those the accepted path had subsumed; when
    it subsumed none, add followed by remove is the identity on the scan
    roots. *)
Theorem removePath_after_add st path :
  isValid (validatePath path (scanPaths st)) = true ->
  scanPaths (removePath (handlePathAdded st path) path)
  = List.filter (fun r => negb (isSubpath r path)) (scanPaths st)
  /\ (hasSubpaths (validatePath path (scanPaths st)) = [] ->
      scanPaths (removePath (handlePathAdded st path) path) = scanPaths st).
Proof.
  intros V.
  assert (E : scanPaths (removePath (handlePathAdded st path) path)
              = List.filter (fun r => negb (isSubpath r path)) (scanPaths st)).
  { cbn [removePath scanPaths]. rewrite handlePathAdded_scanPaths, V.
    unfold removeScanPath. rewrite List.filter_app. cbn.
    rewrite String.eqb_refl. cbn. rewrite app_nil_r.
    apply (removeScanPath_absent _ path).
    intros Hin. apply List.filter_In in Hin as [Hin _].
    destruct (isValid_inv _ _ V path Hin) as [Hn _]. now apply Hn. }
  split; [exact E|]. intros Hs. rewrite E.
  cbn [hasSubpaths validatePath] in Hs. unfold findChildPaths in Hs.
  clear E V. revert Hs. generalize (scanPaths st). intros l.
  induction l as [|x l IH]; [reflexivity|].
  cbn [List.filter]. destruct (isSubpath x path); [discriminate|].
  cbn [negb]. intros Hs. f_equal. now apply IH.
Qed.

Lemma removePath_after_add_witness :
  let st := addAll emptySelector ["/a"; "/b"] in
  scanPaths (removePath (handlePathAdded st "/c") "/c") = ["/a"; "/b"].
Proof.
  intros st.
  destruct (removePath_after_add st "/c" eq_refl) as [_ H].
  apply H. reflexivity.
Defined.

(** X24.  The store's [addScanPath] compares paths as they are written:
    a path already present is not added again, so a duplicate-free list
    stays duplicate-free and adding twice is adding once, and removing a
    path that was just added to a list that did not have it gives the
    list back. *)
Theorem addScanPath_spec paths path :
  (In path paths -> addScanPath paths path = paths)
  /\ (~ In path paths -> addScanPath paths path = paths ++ [path])
  /\ (NoDup paths -> NoDup (addScanPath paths path))
  /\ addScanPath (addScanPath paths path) path = addScanPath paths path
  /\ (~ In path paths ->
      removeScanPath (addScanPath paths path) path = paths).
Proof.
  assert (S : some (fun pathItem => String.eqb pathItem path) paths = true
              <-> In path paths).
  { unfold some. rewrite List.existsb_exists. split.
    - intros (x & Hx & E). apply String.eqb_eq in E. now subst.
    - intros H. exists path. split; [assumption | apply String.eqb_refl]. }
  assert (A : In path paths -> addScanPath paths path = paths).
  { intros H. unfold addScanPath. apply S in H. now rewrite H. }
  assert (B : ~ In path paths -> addScanPath paths path = paths ++ [path]).
  { intros H. unfold addScanPath.
    destruct (some _ paths) eqn:E; [|reflexivity].
    exfalso. apply H, S. reflexivity. }
  split; [exact A|]. split; [exact B|]. split; [|split].
  - intros Hn. destruct (in_dec string_dec path paths) as [H|H].
    + now rewrite A.
    + rewrite B by assumption. apply NoDup_app. split; [assumption|]. split.
      * intros x Hx Hp. apply list_elem_of_In in Hx.
        apply list_elem_of_In in Hp as [<-|[]]. auto.
      * apply NoDup_singleton.
  - destruct (in_dec string_dec path paths) as [H|H].
    + now rewrite !A.
    + rewrite (B H). unfold addScanPath.
      assert (E : some (fun pathItem => String.eqb pathItem path)
                       (paths ++ [path]) = true).
      { unfold some. apply List.existsb_exists. exists path.
        split; [apply in_app_iff; right; now left | apply String.eqb_refl]. }
      now rewrite E.
  - intros H. rewrite (B H). unfold removeScanPath.
    rewrite List.filter_app. cbn. rewrite String.eqb_refl. cbn.
    rewrite app_nil_r. now apply removeScanPath_absent.
Qed.

Lemma addScanPath_spec_witness :
  addScanPath ["/a"; "/b"] "/a" = ["/a"; "/b"]
  /\ removeScanPath (addScanPath ["/a"; "/b"] "/c") "/c" = ["/a"; "/b"].
Proof.
  destruct (addScanPath_spec ["/a"; "/b"] "/a") as (H & _).
  destruct (addScanPath_spec ["/a"; "/b"] "/c") as (_ & _ & _ & _ & H').
  split; [apply H; now left | apply H'].
  cbn. intuition discriminate.
Defined.

(** X11.  Removing a root keeps the other roots as they are, leaves no
    copy of the removed one, and keeps the roots pairwise unrelated. *)
Theorem removePath_spec st path :
  (forall r, In r (scanPaths (removePath st path))
             <-> In r (scanPaths st) /\ r <> path)
  /\ invalidPaths (removePath st path) = invalidPaths st
  /\ (pairwiseUnrelated (scanPaths st) ->
      pairwiseUnrelated (scanPaths (removePath st path))).
Proof.
  cbn [removePath scanPaths invalidPaths]. unfold removeScanPath.
  split; [|split; [reflexivity|apply pairwiseUnrelated_filter]].
  intros r. rewrite List.filter_In, negb_true_iff.
  destruct (String.eqb_spec r path); intuition congruence.
Qed.

End PathExtras.

(** * Further properties of the compression page *)

Module PageExtras.
Import JsString CompressPage PageOps.

(** ** Sets *)

Lemma setHas_In s x : setHas s x = true <-> In x s.
Proof.
  unfold setHas. rewrite List.existsb_exists. split.
  - intros (y & Hy & E). apply String.eqb_eq in E. now subst.
  - intros H. exists x. split; [assumption | apply String.eqb_refl].
Qed.

Lemma setHas_false s x : setHas s x = false <-> ~ In x s.
Proof. rewrite <- setHas_In. now destruct (setHas s x). Qed.

Lemma setDelete_In s x y : In y (setDelete s x) <-> In y s /\ y <> x.
Proof.
  unfold setDelete. rewrite List.filter_In, negb_true_iff.
  destruct (String.eqb_spec y x); intuition congruence.
Qed.

Lemma setDelete_NoDup s x : NoDup s -> NoDup (setDelete s x).
Proof.
  unfold setDelete. induction s as [|y s IH]; cbn; [trivial|].
  intros H. apply NoDup_cons in H as [Hy Hs].
  destruct (negb (String.eqb y x)); [|auto].
  apply NoDup_cons. split; [|auto].
  rewrite list_elem_of_In in *. intros Hin.
  apply List.filter_In in Hin as [Hin _]. auto.
Qed.

Lemma setAdd_In s x y : In y (setAdd s x) <-> In y s \/ y = x.
Proof.
  unfold setAdd. destruct (setHas s x) eqn:E.
  - apply setHas_In in E. intuition congruence.
  - rewrite in_app_iff. cbn. intuition.
Qed.

Lemma setAdd_NoDup s x : NoDup s -> NoDup (setAdd s x).
Proof.
  intros H. unfold setAdd. destruct (setHas s x) eqn:E; [assumption|].
  apply setHas_false in E. apply NoDup_app. split; [assumption|]. split.
  - intros y Hy Hx. apply list_elem_of_In in Hy.
    apply list_elem_of_In in Hx as [<-|[]]. auto.
  - apply NoDup_singleton.
Qed.

Lemma foldAdd_spec xs acc :
  NoDup acc ->
  NoDup (fold_left setAdd xs acc)
  /\ forall y, In y (fold_left setAdd xs acc) <-> In y acc \/ In y xs.
Proof.
  revert acc. induction xs as [|x xs IH]; intros acc H; cbn [fold_left].
  - split; [assumption|]. cbn. tauto.
  - destruct (IH (setAdd acc x) (setAdd_NoDup _ _ H)) as [Hn Hi].
    split; [assumption|]. intros y. rewrite Hi, setAdd_In. cbn. intuition.
Qed.

Lemma foldAdd_NoDup_id xs acc :
  NoDup (acc ++ xs) -> fold_left setAdd xs acc = acc ++ xs.
Proof.
  revert acc. induction xs as [|x xs IH]; intros acc H; cbn [fold_left].
  - now rewrite app_nil_r.
  - assert (Hx : ~ In x acc).
    { apply NoDup_app in H as (_ & Hd & _). intros Hin.
      apply (Hd x); apply list_elem_of_In; [assumption | now left]. }
    unfold setAdd at 2. rewrite (proj2 (setHas_false acc x) Hx).
    rewrite IH; rewrite <- app_assoc; [reflexivity | exact H].
Qed.

Lemma setOfArray_spec xs :
  NoDup (setOfArray xs)
  /\ (forall y, In y (setOfArray xs) <-> In y xs)
  /\ (NoDup xs -> setOfArray xs = xs).
Proof.
  unfold setOfArray.
  destruct (foldAdd_spec xs [] (NoDup_nil_2 : NoDup [])) as [Hn Hi].
  split; [assumption|]. split.
  - intros y. rewrite Hi. cbn. tauto.
  - intros H. now apply (foldAdd_NoDup_id xs []).
Qed.

(** ** Selection *)

(** X12.  Toggling a file flips its membership in the selection and
    nothing else, keeps the selection duplicate-free, and toggling twice
    gives back the same set; [togglePlugin] does the same on the set of
    active plugins. *)
Theorem toggleFileSelection_spec selectedFiles path :
  NoDup selectedFiles ->
  NoDup (toggleFileSelection selectedFiles path)
  /\ (In path (toggleFileSelection selectedFiles path)
      <-> ~ In path selectedFiles)
  /\ (forall q, q <> path ->
        (In q (toggleFileSelection selectedFiles path) <-> In q selectedFiles))
  /\ (forall q, In q (toggleFileSelection
                        (toggleFileSelection selectedFiles path) path)
                <-> In q selectedFiles)
  /\ togglePlugin selectedFiles path = toggleFileSelection selectedFiles path.
Proof.
  intros H.
  assert (T : forall s,
            (In path (toggleFileSelection s path) <-> ~ In path s)
            /\ forall q, q <> path ->
                 (In q (toggleFileSelection s path) <-> In q s)).
  { intros s. unfold toggleFileSelection. destruct (setHas s path) eqn:E.
    - apply setHas_In in E. split.
      + rewrite setDelete_In. tauto.
      + intros q Hq. rewrite setDelete_In. tauto.
    - apply setHas_false in E. split.
      + rewrite setAdd_In. tauto.
      + intros q Hq. rewrite setAdd_In. tauto. }
  split; [|split; [apply T|split; [apply T|split; [|reflexivity]]]].
  - unfold toggleFileSelection. destruct (setHas selectedFiles path);
      [now apply setDelete_NoDup | now apply setAdd_NoDup].
  - intros q. destruct (String.eqb_spec q path) as [->|Hne].
    + rewrite (proj1 (T _)), (proj1 (T _)).
      destruct (setHas selectedFiles path) eqn:E.
      * apply setHas_In in E. tauto.
      * apply setHas_false in E. tauto.
    + now rewrite (proj2 (T _) q Hne), (proj2 (T _) q Hne).
Qed.

Lemma toggleFileSelection_spec_witness :
  NoDup (toggleFileSelection ["/a.png"; "/b.png"] "/a.png")
  /\ ~ In "/a.png" (toggleFileSelection ["/a.png"; "/b.png"] "/a.png").
Proof.
  assert (Hn : NoDup ["/a.png"; "/b.png"]).
  { apply NoDup_ListNoDup. repeat constructor; cbn; intuition discriminate. }
  destruct (toggleFileSelection_spec ["/a.png"; "/b.png"] "/a.png" Hn)
    as (H1 & H2 & _).
  split; [exact H1|]. intros Hin. apply H2 in Hin. apply Hin. now left.
Defined.

(** X13.  "Select all / deselect all" compares sizes only.  Whatever the
    selection was, the result is empty or selects exactly the scanned
    paths, without duplicates.  When the scanned paths are distinct and
    there is at least one, two presses in a row end with nothing
    selected exactly when the selection did not already have as many
    entries as there are files. *)
Theorem toggleAllFiles_spec files sel :
  let sel' := toggleAllFiles files sel in
  (sel' = [] <-> length sel = length files \/ files = [])
  /\ (length sel <> length files ->
      NoDup sel' /\ forall x, In x sel' <-> In x (map cf_path files))
  /\ (NoDup (map cf_path files) -> files <> [] ->
      (toggleAllFiles files sel' = [] <-> length sel <> length files)).
Proof.
  cbn zeta. unfold toggleAllFiles.
  destruct (setOfArray_spec (map cf_path files)) as (Hn & Hi & Hid).
  destruct (Nat.eqb_spec (length sel) (length files)) as [E|E].
  - split; [tauto|]. split; [tauto|]. intros _ Hne. cbn [length].
    destruct (Nat.eqb_spec 0 (length files)) as [E0|E0].
    + destruct files; [contradiction | discriminate].
    + split; [|tauto]. intros H. exfalso.
      destruct files as [|f fs]; [contradiction|].
      assert (Hin : In (cf_path f) (setOfArray (map cf_path (f :: fs))))
        by (apply Hi; now left).
      rewrite H in Hin. destruct Hin.
  - split; [|split; [auto|]].
    + split.
      * intros H. right. destruct files as [|f fs]; [reflexivity|].
        assert (Hin : In (cf_path f) (setOfArray (map cf_path (f :: fs))))
          by (apply Hi; now left).
        rewrite H in Hin. destruct Hin.
      * intros [H | ->]; [contradiction | reflexivity].
    + intros Hnd Hne. rewrite (Hid Hnd), length_map, Nat.eqb_refl. tauto.
Qed.

(** ** Plugin order *)

Lemma swap_adjacent {A} (l : list A) i a b :
  l !! i = Some a -> l !! S i = Some b ->
  <[S i := a]> (<[i := b]> l) ≡ₚ l
  /\ <[S i := b]> (<[i := a]> (<[S i := a]> (<[i := b]> l))) = l
  /\ length (<[S i := a]> (<[i := b]> l)) = length l.
Proof.
  revert i. induction l as [|x l IH]; intros i Ha Hb; [discriminate|].
  destruct i as [|i].
  - destruct l as [|y l]; [discriminate|]. cbn in Ha, Hb.
    injection Ha as ->. injection Hb as ->. cbn.
    repeat split. apply Permutation_swap.
  - cbn in Ha, Hb. destruct (IH i Ha Hb) as (H1 & H2 & H3). cbn.
    split; [now apply Permutation_skip|].
    split; [f_equal; exact H2 | f_equal; exact H3].
Qed.

Lemma filter_Permutation_bool {A} (f : A -> bool) (l k : list A) :
  l ≡ₚ k -> List.filter f l ≡ₚ List.filter f k.
Proof.
  induction 1 as [|x l k _ IH|x y l|l k m _ IH1 _ IH2]; cbn.
  - reflexivity.
  - destruct (f x); [now apply Permutation_skip | assumption].
  - destruct (f x), (f y); try reflexivity. apply Permutation_swap.
  - etransitivity; eassumption.
Qed.

(** X14.  Moving a plugin down exchanges it with its successor and
    touches no other position; on the last position or beyond nothing
    changes.  The list stays a permutation of itself, so no plugin is
    lost or duplicated and the same plugins remain active. *)
Theorem movePluginDown_spec plugins index active :
  movePluginDown plugins index ≡ₚ plugins
  /\ length (movePluginDown plugins index) = length plugins
  /\ getActivePlugins (movePluginDown plugins index) active
       ≡ₚ getActivePlugins plugins active
  /\ (length plugins <= S index -> movePluginDown plugins index = plugins)
  /\ (S index < length plugins ->
      movePluginDown plugins index !! index = plugins !! S index
      /\ movePluginDown plugins index !! S index = plugins !! index
      /\ forall j, j <> index -> j <> S index ->
           movePluginDown plugins index !! j = plugins !! j).
Proof.
  assert (P : movePluginDown plugins index ≡ₚ plugins
              /\ length (movePluginDown plugins index) = length plugins).
  { unfold movePluginDown. destruct (index <? length plugins - 1); [|auto].
    destruct (plugins !! index) as [a|] eqn:Ha; [|auto].
    destruct (plugins !! S index) as [b|] eqn:Hb; [|auto].
    destruct (swap_adjacent plugins index a b Ha Hb) as (H1 & _ & H3). auto. }
  destruct P as [P L]. split; [exact P|]. split; [exact L|]. split.
  - unfold getActivePlugins. apply Permutation_map.
    now apply filter_Permutation_bool.
  - split.
    + intros H. unfold movePluginDown.
      destruct (Nat.ltb_spec index (length plugins - 1)); [lia | reflexivity].
    + intros H. unfold movePluginDown.
      destruct (Nat.ltb_spec index (length plugins - 1)); [|lia].
      destruct (lookup_lt_is_Some_2 plugins index ltac:(lia)) as [a Ha].
      destruct (lookup_lt_is_Some_2 plugins (S index) H) as [b Hb].
      rewrite Ha, Hb. split; [|split].
      * rewrite list_lookup_insert_ne by lia.
        apply list_lookup_insert_eq. lia.
      * apply list_lookup_insert_eq. rewrite length_insert. lia.
      * intros j H1 H2. now rewrite !list_lookup_insert_ne by congruence.
Qed.

Lemma movePluginDown_spec_witness :
  let p := fun n => {| plugin_id := n; plugin_description := "";
                       plugin_version := "1.0.0" |} in
  movePluginDown [p "a"; p "b"; p "c"] 1 = [p "a"; p "c"; p "b"]
  /\ movePluginDown [p "a"; p "b"; p "c"] 2 = [p "a"; p "b"; p "c"].
Proof.
  intros p. split; [reflexivity|].
  destruct (movePluginDown_spec [p "a"; p "b"; p "c"] 2 []) as (_ & _ & _ & H & _).
  apply H. cbn. lia.
Defined.

(** X15.  Moving a plugin up is moving its predecessor down, and undoes
    a move down: after [movePluginDown] at [index], [movePluginUp] at
    [index + 1] restores the order.  At index 0 nothing moves. *)
Theorem movePluginUp_spec plugins index :
  movePluginUp plugins 0 = Some plugins
  /\ (S index < length plugins ->
      movePluginUp plugins (S index) = Some (movePluginDown plugins index)
      /\ movePluginUp (movePluginDown plugins index) (S index) = Some plugins).
Proof.
  split; [reflexivity|]. intros H.
  destruct (lookup_lt_is_Some_2 plugins index ltac:(lia)) as [a Ha].
  destruct (lookup_lt_is_Some_2 plugins (S index) H) as [b Hb].
  destruct (swap_adjacent plugins index a b Ha Hb) as (_ & H2 & H3).
  assert (D : movePluginDown plugins index
              = <[S index := a]> (<[index := b]> plugins)).
  { unfold movePluginDown.
    destruct (Nat.ltb_spec index (length plugins - 1)); [|lia].
    now rewrite Ha, Hb. }
  split.
  - unfold movePluginUp. cbn [Nat.ltb Nat.leb].
    replace (S index - 1) with index by lia. now rewrite Ha, Hb, D.
  - rewrite D. unfold movePluginUp. cbn [Nat.ltb Nat.leb].
    replace (S index - 1) with index by lia.
    rewrite list_lookup_insert_ne by lia.
    rewrite list_lookup_insert_eq by lia.
    rewrite list_lookup_insert_eq by (rewrite length_insert; lia).
    now rewrite H2.
Qed.

Lemma movePluginUp_spec_witness :
  let p := fun n => {| plugin_id := n; plugin_description := "";
                       plugin_version := "1.0.0" |} in
  movePluginUp (movePluginDown [p "a"; p "b"; p "c"] 0) 1
  = Some [p "a"; p "b"; p "c"].
Proof.
  intros p.
  destruct (movePluginUp_spec [p "a"; p "b"; p "c"] 0) as [_ H].
  apply H. cbn. lia.
Defined.

(** X23.  [getActivePlugins] returns exactly the names that are both
    available and active, and toggling a plugin flips whether its name
    is returned while the other names are unaffected. *)
Theorem getActivePlugins_toggle available active pluginName :
  (forall n, In n (getActivePlugins available active)
             <-> In n (map plugin_id available) /\ In n active)
  /\ (In pluginName (getActivePlugins available (togglePlugin active pluginName))
      <-> In pluginName (map plugin_id available) /\ ~ In pluginName active)
  /\ (forall n, n <> pluginName ->
        (In n (getActivePlugins available (togglePlugin active pluginName))
         <-> In n (getActivePlugins available active))).
Proof.
  assert (G : forall act n, In n (getActivePlugins available act)
                            <-> In n (map plugin_id available) /\ In n act).
  { intros act n. unfold getActivePlugins. rewrite !in_map_iff. split.
    - intros (p & <- & Hp). apply List.filter_In in Hp as [Hp Ha].
      apply setHas_In in Ha. eauto.
    - intros [(p & <- & Hp) Ha]. exists p. split; [reflexivity|].
      apply List.filter_In. split; [assumption | now apply setHas_In]. }
  assert (T : (In pluginName (togglePlugin active pluginName)
               <-> ~ In pluginName active)
              /\ forall n, n <> pluginName ->
                   (In n (togglePlugin active pluginName) <-> In n active)).
  { unfold togglePlugin. destruct (setHas active pluginName) eqn:E.
    - apply setHas_In in E. split.
      + rewrite setDelete_In. tauto.
      + intros n Hn. rewrite setDelete_In. tauto.
    - apply setHas_false in E. split.
      + rewrite setAdd_In. tauto.
      + intros n Hn. rewrite setAdd_In. tauto. }
  split; [apply G|]. split.
  - rewrite G, (proj1 T). tauto.
  - intros n Hn. rewrite !G, (proj2 T n Hn). tauto.
Qed.

(** ** Scanning *)

(** X16.  [handleScan] with no scan path or no active plugin changes
    nothing but the error message and sends no request.  Otherwise the
    scan ends with [scanning] cleared; after a successful scan the error
    is cleared, the lists are the engine's and every compressible file
    is selected, each path once; after a failed scan an error is shown
    and no file of the previous scan is left, selected or not. *)
Theorem handleScan_outcomes engine pv :
  (pv_scanPaths pv = [] \/ pv_activePlugins pv = [] ->
   snd (handleScan_begin pv) = None
   /\ exists msg, handleScan engine pv = setError pv (Some msg))
  /\ (pv_scanPaths pv <> [] -> pv_activePlugins pv <> [] ->
      let pv' := handleScan engine pv in
      pv_scanning pv' = false
      /\ match engine (pv_scanPaths pv)
                 (getActivePlugins (pv_availablePlugins pv)
                                   (pv_activePlugins pv)) with
         | ScanFulfilled result =>
             pv_error pv' = None
             /\ pv_compressibleFiles pv' = compressible result
             /\ pv_rejectedFiles pv' = rejected result
             /\ NoDup (pv_selectedFiles pv')
             /\ forall p, In p (pv_selectedFiles pv')
                          <-> In p (map cf_path (compressible result))
         | ScanRejected err =>
             pv_error pv' <> None
             /\ pv_compressibleFiles pv' = []
             /\ pv_rejectedFiles pv' = []
             /\ pv_selectedFiles pv' = []
         end).
Proof.
  unfold handleScan, handleScan_begin. split.
  - intros H. destruct (pv_scanPaths pv) as [|x xs]; cbn; [eauto|].
    destruct (pv_activePlugins pv) as [|y ys]; cbn; [eauto|].
    destruct H; discriminate.
  - intros H1 H2.
    destruct (pv_scanPaths pv) as [|x xs] eqn:E1; [contradiction|].
    destruct (pv_activePlugins pv) as [|y ys] eqn:E2; [contradiction|].
    cbn [length Nat.eqb]. cbv zeta.
    destruct (engine _ _) as [result|err]; cbn.
    + destruct (setOfArray_spec (map cf_path (compressible result)))
        as (Hn & Hi & _).
      repeat split; try assumption; apply Hi.
    + repeat split. discriminate.
Qed.

Lemma handleScan_outcomes_witness :
  let pv := {| pv_scanPaths := [];
               pv_error := None;
               pv_availablePlugins := [];
               pv_activePlugins := ["WebP Converter"];
               pv_scanning := false;
               pv_compressibleFiles := [];
               pv_rejectedFiles := [];
               pv_selectedFiles := [];
               pv_compressing := false;
               pv_compressionResults := [];
               pv_poolSize := 2;
               pv_processedCount := 0;
               pv_totalToProcess := 0;
               pv_currentlyProcessing := [];
               pv_currentStep := scan |} in
  snd (handleScan_begin pv) = None.
Proof.
  intros pv.
  destruct (handleScan_outcomes (fun _ _ => ScanRejected OtherValue) pv)
    as [H _].
  destruct (H (or_introl eq_refl)) as [H' _]. exact H'.
Defined.

End PageExtras.

(** * Further properties of the worker pool *)

Module PoolExtras.
Import JsString CompressPage PageOps PoolTheory PageExtras.

Section Pool.

Variable files : list string.
Variable plugins : list string.
Variable poolSize : nat.
Variable engine : list string -> list string -> Settled.

Local Abbreviation step := (resume files plugins engine).
Local Abbreviation run := (exec files plugins engine).
Local Abbreviation reach := (reachable files plugins poolSize engine).
Local Abbreviation Inv := (poolInvariant files plugins engine).

(** X17.  The progress counter never runs ahead: at every moment of a run
    [processedCount] plus the number of pending engine calls is the
    number of indices claimed so far, so it never exceeds the length of
    the plan; when the run is complete (with at least one worker) it
    equals the length of the plan and nothing is shown as in flight. *)
Theorem progress_counters r :
  reachable files plugins poolSize engine r ->
  processedCount r + length (pendingPaths (pool r)) = fileIndex r
  /\ processedCount r <= length files
  /\ (1 <= poolSize -> complete r = true ->
      processedCount r = length files /\ currentlyProcessing r = []).
Proof.
  intros Hr.
  destruct (Inv_reachable _ _ _ _ r Hr)
    as (Ha & _ & _ & (fin & _ & Hd & Hp) & _ & _).
  apply Permutation_length in Hd. rewrite length_app, length_take in Hd.
  split; [lia|]. split; [lia|]. intros HP Hc.
  destruct (completed_results _ _ _ _ r Hr HP Hc) as (_ & _ & _ & H1 & H2).
  auto.
Qed.

(** ** The in-flight list *)

Lemma pending_NoDup r :
  NoDup files -> Inv r -> NoDup (pendingPaths (pool r)).
Proof.
  intros Hn (_ & _ & _ & (fin & _ & Hd & _) & _ & _).
  assert (Ht : NoDup (take (fileIndex r) files))
    by (eapply sublist_NoDup; [exact Hn | apply sublist_take]).
  rewrite <- Hd in Ht. now apply NoDup_app in Ht as (_ & _ & Ht).
Qed.

Lemma inFlight_claim (cp pending pending' : list string) p :
  cp ≡ₚ pending -> pending' ≡ₚ p :: pending -> cp ++ [p] ≡ₚ pending'.
Proof.
  intros H1 H2. rewrite H2, H1. symmetry. apply Permutation_cons_append.
Qed.

Lemma inFlight_spawn r :
  currentlyProcessing r ≡ₚ pendingPaths (pool r) ->
  currentlyProcessing (spawnWorker files r)
    ≡ₚ pendingPaths (pool (spawnWorker files r)).
Proof.
  intros K. unfold spawnWorker.
  destruct (le_lt_dec (length files) (fileIndex r)) as [Hge|Hlt].
  - rewrite loopHead_exit by assumption. cbn [setPool pool currentlyProcessing].
    rewrite pendingPaths_app. cbn. now rewrite app_nil_r.
  - rewrite loopHead_claim by assumption. cbn [setPool pool currentlyProcessing].
    rewrite pendingPaths_app. cbn. now apply Permutation_app_tail.
Qed.

Lemma inFlight_step e r r' :
  NoDup files -> Inv r ->
  currentlyProcessing r ≡ₚ pendingPaths (pool r) ->
  step e r = Some r' ->
  currentlyProcessing r' ≡ₚ pendingPaths (pool r').
Proof.
  intros Hn HI K Hs. pose proof (pending_NoDup r Hn HI) as Hnd.
  destruct e as [w|w]; cbn in Hs;
    destruct (pool r !! w) as [[i p| |]|] eqn:Hw; try discriminate.
  - injection Hs as <-.
    destruct (pendingPaths_insert _ _ _ AwaitDelay Hw) as (rest & P1 & P2).
    cbn [pendingPath app] in P1, P2.
    unfold afterCompress; cbn [currentlyProcessing pool].
    rewrite P2. rewrite P1 in K, Hnd.
    apply (filter_Permutation_bool (fun q => negb (String.eqb q p))) in K.
    rewrite K. cbn. rewrite String.eqb_refl. cbn.
    apply NoDup_cons in Hnd as [Hp _]. rewrite list_elem_of_In in Hp.
    clear -Hp. induction rest as [|x rest IH]; [reflexivity|].
    cbn. destruct (String.eqb_spec x p) as [->|Hne]; cbn.
    + exfalso. apply Hp. now left.
    + apply Permutation_skip, IH. intros H. apply Hp. now right.
  - destruct (le_lt_dec (length files) (fileIndex r)) as [Hge|Hlt].
    + rewrite loopHead_exit in Hs by assumption. injection Hs as <-.
      destruct (pendingPaths_insert _ _ _ Returned Hw) as (rest & P1 & P2).
      cbn [setPool pool currentlyProcessing]. now rewrite P2, <- P1.
    + rewrite loopHead_claim in Hs by assumption. injection Hs as <-.
      destruct (pendingPaths_insert _ _ _
                  (AwaitCompress (fileIndex r)
                     (nth (fileIndex r) files EmptyString)) Hw)
        as (rest & P1 & P2).
      cbn [setPool pool currentlyProcessing].
      apply (inFlight_claim _ (pendingPaths (pool r))); [assumption|].
      now rewrite P2, P1.
Qed.

Lemma inFlight_spawns k :
  let r := Nat.iter k (spawnWorker files) initialRun in
  currentlyProcessing r ≡ₚ pendingPaths (pool r).
Proof.
  induction k as [|k IH]; [reflexivity|].
  cbv zeta. rewrite Nat.iter_succ. now apply inFlight_spawn.
Qed.

(** X18.  For a plan of distinct paths, [currentlyProcessing] lists, at
    every moment of a run, exactly the paths whose engine call is
    pending, each once: no finished path lingers and no pending path is
    missing. *)
Theorem inFlight_exact r :
  NoDup files ->
  reachable files plugins poolSize engine r ->
  currentlyProcessing r ≡ₚ pendingPaths (pool r)
  /\ NoDup (currentlyProcessing r).
Proof.
  intros Hn [events Hr].
  assert (K : forall evs r0 r1,
            Inv r0 -> currentlyProcessing r0 ≡ₚ pendingPaths (pool r0) ->
            run evs r0 = Some r1 ->
            currentlyProcessing r1 ≡ₚ pendingPaths (pool r1)).
  { induction evs as [|e evs IH]; cbn; intros r0 r1 HI K0 H.
    - now injection H as <-.
    - destruct (step e r0) as [r2|] eqn:E; [|discriminate].
      apply (IH r2 r1); [eapply Inv_step; eassumption| |assumption].
      eapply inFlight_step; eassumption. }
  assert (P : currentlyProcessing r ≡ₚ pendingPaths (pool r)).
  { apply (K events (startPool files poolSize) r);
      [apply Inv_spawns | apply inFlight_spawns | exact Hr]. }
  split; [exact P|]. rewrite P.
  apply pending_NoDup; [assumption|].
  apply (Inv_reachable files plugins poolSize engine). now exists events.
Qed.

(** ** Results *)

Lemma step_monotone e r r' :
  step e r = Some r' ->
  (exists suffix, compressionResults r' = compressionResults r ++ suffix)
  /\ processedCount r <= processedCount r'
  /\ fileIndex r <= fileIndex r'.
Proof.
  intros Hs. destruct e as [w|w]; cbn in Hs;
    destruct (pool r !! w) as [[i p| |]|] eqn:Hw; try discriminate.
  - injection Hs as <-. rewrite afterCompress_results.
    unfold afterCompress; cbn. split; [eauto|]. lia.
  - unfold loopHead in Hs. destruct (fileIndex r <? length files);
      injection Hs as <-; cbn; (split; [exists []; now rewrite app_nil_r | lia]).
Qed.

(** X19.  Results are only ever appended: along any stretch of a run the
    earlier results stay where they are, in the same order, and neither
    the progress counter nor the cursor goes back. *)
Theorem results_append_only events r r' :
  exec files plugins engine events r = Some r' ->
  (exists suffix, compressionResults r' = compressionResults r ++ suffix)
  /\ processedCount r <= processedCount r'
  /\ fileIndex r <= fileIndex r'.
Proof.
  revert r. induction events as [|e events IH]; cbn [exec]; intros r H.
  - injection H as <-. split; [exists []; now rewrite app_nil_r | lia].
  - destruct (step e r) as [r1|] eqn:E; [|discriminate].
    destruct (step_monotone _ _ _ E) as ([s1 H1] & H2 & H3).
    destruct (IH _ H) as ([s2 H4] & H5 & H6).
    split; [|lia]. exists (s1 ++ s2). now rewrite H4, H1, app_assoc.
Qed.

(** ** A pool of one worker *)

Local Abbreviation sequential := (singleWorkerInvariant files plugins engine).

Lemma sequential_start : sequential (startPool files 1).
Proof.
  unfold startPool. cbn [Nat.iter nat_rect]. unfold spawnWorker, loopHead.
  cbn [initialRun fileIndex pool length].
  destruct files as [|f fs]; cbn; (split; [reflexivity|]);
    exists []; repeat split.
Qed.

Lemma sequential_step e r r' :
  sequential r -> step e r = Some r' -> sequential r'.
Proof.
  intros (Hl & fin & H1 & H2 & H3) Hs.
  destruct (pool r) as [|t [|t' ts]] eqn:Ep; try discriminate. clear Hl.
  destruct e as [w|w]; cbn in Hs; rewrite Ep in Hs;
    destruct w as [|w]; cbn in Hs; try discriminate;
    destruct t as [i p| |]; try discriminate.
  - injection Hs as <-. unfold singleWorkerInvariant.
    rewrite afterCompress_results. unfold afterCompress; cbn.
    rewrite Ep. cbn. split; [reflexivity|].
    exists (fin ++ [p]). cbn in H2. rewrite flat_map_app, H1, app_nil_r, length_app.
    cbn. rewrite app_nil_r. repeat split; [assumption | lia].
  - cbn in H2. rewrite app_nil_r in H2.
    destruct (le_lt_dec (length files) (fileIndex r)) as [Hge|Hlt].
    + rewrite loopHead_exit in Hs by assumption. injection Hs as <-.
      unfold singleWorkerInvariant; cbn. rewrite Ep. cbn. split; [reflexivity|].
      exists fin. rewrite app_nil_r. auto.
    + rewrite loopHead_claim in Hs by assumption. injection Hs as <-.
      unfold singleWorkerInvariant; cbn. rewrite Ep. cbn. split; [reflexivity|].
      exists fin. rewrite take_S_nth by assumption.
      repeat split; [assumption | now rewrite H2 | assumption].
Qed.

Lemma sequential_reachable r :
  reachable files plugins 1 engine r -> sequential r.
Proof.
  intros [events H]. revert H. generalize sequential_start.
  generalize (startPool files 1). induction events as [|e events IH];
    cbn [exec]; intros r0 S0 H.
  - now injection H as <-.
  - destruct (step e r0) as [r1|] eqn:E; [|discriminate].
    apply (IH r1); [eapply sequential_step; eassumption | assumption].
Qed.

(** X20.  With a pool of one worker the paths are processed in plan
    order: at every moment of the run the results are those recorded for
    the first [processedCount] paths of the plan, in that order, and at
    completion those recorded for the whole plan. *)
Theorem single_worker_plan_order r :
  reachable files plugins 1 engine r ->
  compressionResults r
  = flat_map (recorded plugins engine) (take (processedCount r) files)
  /\ (complete r = true ->
      compressionResults r = flat_map (recorded plugins engine) files).
Proof.
  intros Hr. destruct (sequential_reachable r Hr) as (_ & fin & H1 & H2 & H3).
  assert (E : take (processedCount r) files = fin).
  { assert (Hle : length fin <= fileIndex r).
    { apply (f_equal length) in H2.
      rewrite length_app, length_take in H2. lia. }
    rewrite H3.
    rewrite <- (take_app_length fin (pendingPaths (pool r))) at 2.
    rewrite H2, take_take. f_equal. lia. }
  split; [now rewrite E|]. intros Hc.
  rewrite (pendingPaths_complete r Hc), app_nil_r in H2.
  rewrite (complete_cursor files plugins 1 engine r Hr (le_n 1) Hc) in H2.
  rewrite firstn_all in H2. now rewrite H1, H2.
Qed.

End Pool.

(** ** Concrete runs *)

Lemma progress_counters_witness :
  let r := startPool ["a"; "b"; "c"] 2 in
  processedCount r + length (pendingPaths (pool r)) = fileIndex r.
Proof.
  intros r.
  destruct (progress_counters ["a"; "b"; "c"] [] 2 mockCompressFilesInPlace r)
    as [H _]; [now exists [] | exact H].
Defined.

Lemma inFlight_exact_witness :
  let r := startPool ["a"; "b"; "c"] 2 in
  currentlyProcessing r ≡ₚ pendingPaths (pool r).
Proof.
  intros r.
  assert (Hn : NoDup ["a"; "b"; "c"]).
  { apply NoDup_ListNoDup. repeat constructor; cbn; intuition discriminate. }
  destruct (inFlight_exact ["a"; "b"; "c"] [] 2 mockCompressFilesInPlace r Hn)
    as [H _]; [now exists [] | exact H].
Defined.

Lemma results_append_only_witness :
  let r := startPool ["a"; "b"] 2 in
  exists r', exec ["a"; "b"] [] mockCompressFilesInPlace
                  [CompressSettled 1; CompressSettled 0] r = Some r'
             /\ map path (compressionResults r') = ["b"; "a"]
             /\ processedCount r <= processedCount r'.
Proof.
  intros r. eexists. split; [reflexivity|]. split; [reflexivity|].
  destruct (results_append_only ["a"; "b"] [] mockCompressFilesInPlace
              [CompressSettled 1; CompressSettled 0] r _ eq_refl)
    as (_ & H & _).
  exact H.
Defined.

Lemma single_worker_plan_order_witness :
  let r := runFrom ["a"; "b"; "c"] [] mockCompressFilesInPlace 9
                   (startPool ["a"; "b"; "c"] 1) in
  complete r = true
  /\ compressionResults r
     = flat_map (recorded [] mockCompressFilesInPlace) ["a"; "b"; "c"].
Proof.
  intros r. split; [reflexivity|].
  assert (Hr : reachable ["a"; "b"; "c"] [] 1 mockCompressFilesInPlace r).
  { exists [CompressSettled 0; DelayElapsed 0; CompressSettled 0;
            DelayElapsed 0; CompressSettled 0; DelayElapsed 0].
    vm_compute. reflexivity. }
  destruct (single_worker_plan_order ["a"; "b"; "c"] [] mockCompressFilesInPlace
              r Hr) as [_ H].
  apply H. reflexivity.
Defined.

(** ** The web-mode engine *)

(** X21.  In web mode (the mock engine) a completed run with at least
    one worker has, for every schedule, as many results as planned
    paths, all of them successes without an error text, and the paths of
    the results are the planned paths with the same multiplicities. *)
Theorem web_mode_all_succeed files plugins poolSize r :
  1 <= poolSize ->
  reachable files plugins poolSize mockCompressFilesInPlace r ->
  complete r = true ->
  length (compressionResults r) = length files
  /\ map path (compressionResults r) ≡ₚ files
  /\ Forall (fun x => success x = true /\ error x = None)
            (compressionResults r).
Proof.
  intros HP Hr Hc.
  destruct (completed_results _ _ _ _ r Hr HP Hc) as (fin & Hfin & Hres & _).
  assert (E : map path (compressionResults r) = fin
              /\ Forall (fun x => success x = true /\ error x = None)
                        (compressionResults r)).
  { rewrite Hres. clear. induction fin as [|p fin [IH1 IH2]]; cbn.
    - split; constructor.
    - split; [now rewrite IH1|]. constructor; [split; reflexivity | exact IH2]. }
  destruct E as [E1 E2]. split; [|split; [now rewrite E1 | exact E2]].
  rewrite <- (length_map path), E1. now apply Permutation_length.
Qed.

Lemma web_mode_all_succeed_witness :
  let r := runFrom ["a"; "b"; "c"] [] mockCompressFilesInPlace 9
                   (startPool ["a"; "b"; "c"] 2) in
  length (compressionResults r) = 3
  /\ map path (compressionResults r) ≡ₚ ["a"; "b"; "c"].
Proof.
  intros r.
  assert (Hr : reachable ["a"; "b"; "c"] [] 2 mockCompressFilesInPlace r).
  { exists [CompressSettled 0; DelayElapsed 0; CompressSettled 0;
            DelayElapsed 0; CompressSettled 1; DelayElapsed 1].
    vm_compute. reflexivity. }
  destruct (web_mode_all_succeed ["a"; "b"; "c"] [] 2 r ltac:(lia) Hr eq_refl)
    as (H1 & H2 & _).
  split; [exact H1 | exact H2].
Defined.

(** ** [handleCompress] as a whole *)

(** X22.  [handleCompress] with an empty selection only reports "Please
    select files to compress".  With a non-empty selection and at least
    one worker it can always run to its end, and however the engine
    calls interleave it ends in the Process step with [compressing]
    cleared, nothing in flight, no error, the selection untouched, and
    the progress counter equal to [totalToProcess], the number of
    selected files. *)
Theorem handleCompress_outcome engine pv :
  (pv_selectedFiles pv = [] ->
   forall events,
     handleCompress engine events pv
     = Some (setError pv (Some "Please select files to compress")))
  /\ (pv_selectedFiles pv <> [] -> 1 <= pv_poolSize pv ->
      (exists events pv', handleCompress engine events pv = Some pv')
      /\ forall events pv',
           handleCompress engine events pv = Some pv' ->
           pv_currentStep pv' = process
           /\ pv_compressing pv' = false
           /\ pv_currentlyProcessing pv' = []
           /\ pv_error pv' = None
           /\ pv_selectedFiles pv' = pv_selectedFiles pv
           /\ pv_totalToProcess pv' = length (pv_selectedFiles pv)
           /\ pv_processedCount pv' = pv_totalToProcess pv').
Proof.
  unfold handleCompress. split.
  - intros -> events. reflexivity.
  - intros Hne HP.
    destruct (pv_selectedFiles pv) as [|f fs] eqn:Es; [contradiction|].
    cbn [length Nat.eqb]. rewrite <- Es.
    set (plugins := getActivePlugins _ _).
    split.
    + destruct (run_can_complete (pv_selectedFiles pv) plugins (pv_poolSize pv)
                  engine _ (start_reachable _ _ _ _))
        as (r & _ & Hc & events & Hr).
      exists events. eexists. rewrite Hr, Hc. reflexivity.
    + intros events pv' H.
      destruct (exec _ _ _ events _) as [r|] eqn:Hr; [|discriminate].
      destruct (complete r) eqn:Hc; [|discriminate].
      injection H as <-. cbn.
      assert (Hreach : reachable (pv_selectedFiles pv) plugins (pv_poolSize pv)
                                 engine r) by now exists events.
      destruct (completed_results _ _ _ _ r Hreach HP Hc) as (_ & _ & _ & H1 & _).
      rewrite Es in H1. cbn [length] in H1. repeat split; assumption.
Qed.

Lemma handleCompress_outcome_witness :
  let pv := {| pv_scanPaths := ["/photos"];
               pv_error := Some "Please select files to compress";
               pv_availablePlugins := [];
               pv_activePlugins := [];
               pv_scanning := false;
               pv_compressibleFiles := [];
               pv_rejectedFiles := [];
               pv_selectedFiles := ["/photos/a.png"; "/photos/b.png"];
               pv_compressing := false;
               pv_compressionResults := [];
               pv_poolSize := 2;
               pv_processedCount := 0;
               pv_totalToProcess := 0;
               pv_currentlyProcessing := [];
               pv_currentStep := confirm |} in
  exists events pv',
    handleCompress mockCompressFilesInPlace events pv = Some pv'
    /\ pv_processedCount pv' = 2.
Proof.
  intros pv.
  destruct (handleCompress_outcome mockCompressFilesInPlace pv) as [_ H].
  destruct (H ltac:(discriminate) ltac:(cbn; lia)) as [(events & pv' & E) Hall].
  exists events, pv'. split; [exact E|].
  destruct (Hall events pv' E) as (_ & _ & _ & _ & _ & Ht & Hp).
  rewrite Hp, Ht. reflexivity.
Defined.

End PoolExtras.

(** * The scenarios of the specification, run on the model *)

Module Scenarios.
Import PathUtils PathSelector CompressPage.

(** Scenario A: one worker, three paths, all succeed. *)
Example scenario_A :
  let step := resume ["a"; "b"; "c"] [] mockCompressFilesInPlace in
  let r0 := startPool ["a"; "b"; "c"] 1 in
  exists r1 r2 r3 r4 r5 r6,
    step (CompressSettled 0) r0 = Some r1 /\ step (DelayElapsed 0) r1 = Some r2
    /\ step (CompressSettled 0) r2 = Some r3 /\ step (DelayElapsed 0) r3 = Some r4
    /\ step (CompressSettled 0) r4 = Some r5 /\ step (DelayElapsed 0) r5 = Some r6
    /\ map processedCount [r0; r1; r3; r5; r6] = [0; 1; 2; 3; 3]
    /\ complete r6 = true
    /\ map path (compressionResults r6) = ["a"; "b"; "c"].
Proof. cbv zeta. do 6 eexists. repeat split. Qed.

(** Scenario B: five workers, three paths. *)
Example scenario_B :
  let r := runFrom ["a"; "b"; "c"] [] mockCompressFilesInPlace 9
                   (startPool ["a"; "b"; "c"] 5) in
  map fst (claimed r) = [0; 1; 2]
  /\ length (pool r) = 5
  /\ complete r = true
  /\ length (compressionResults r) = 3.
Proof. repeat split. Qed.

(** Scenario C: two workers, four paths, the second one always fails. *)
Example scenario_C :
  let engine := fun (filePaths pluginOrders : list string) =>
                  if String.eqb (List.hd EmptyString filePaths) "b"
                  then Rejected (ErrorObject "disk full")
                  else mockCompressFilesInPlace filePaths pluginOrders in
  let r := runFrom ["a"; "b"; "c"; "d"] [] engine 12
                   (startPool ["a"; "b"; "c"; "d"] 2) in
  complete r = true
  /\ processedCount r = 4
  /\ List.filter (fun x => negb (success x)) (compressionResults r)
     = [failureResult "b" (ErrorObject "disk full")]
  /\ length (List.filter success (compressionResults r)) = 3.
Proof. repeat split. Qed.

(** Scenario D: [/a/b], then [/a/b/c] (rejected with a warning), then
    [/a] (which subsumes [/a/b]). *)
Example scenario_D :
  scanPaths (addAll emptySelector ["/a/b"]) = ["/a/b"]
  /\ scanPaths (addAll emptySelector ["/a/b"; "/a/b/c"]) = ["/a/b"]
  /\ warnings (validatePath "/a/b/c" ["/a/b"])
     = ["This path is already covered by: /a/b"]
  /\ scanPaths (addAll emptySelector ["/a/b"; "/a/b/c"; "/a"]) = ["/a"].
Proof. repeat split. Qed.

End Scenarios.
